(** * tachyfont.CffDict: a shallow embedding of the CFF DICT decoder

    The JavaScript source parses a CFF DICT (a compact operator/operand table
    of an OpenType/CFF font) out of a bounded byte region.  The embedding
    below follows the source function by function:

    - [JS]               the JavaScript semantics the code relies on (32-bit
                         bitwise operators, the [in] operator on object
                         literals, thrown errors, the debug log);
    - [BinaryFontEditor] the byte cursor the decoder reads from;
    - [CffDict]          the decoder itself: [parseNibbles_],
                         [readOperandsOperator_], [init_], [loadDict] and the
                         accessors [getName], [getKeys], [get].

    Bytes are [Byte.byte], byte values and operands are [Z], offsets and
    lengths are [nat], operator tokens are [string], the operator->operands
    object is a [gmap string _].  The compile-time flag goog.DEBUG of the
    Closure library is a parameter of the decoder: the source creates the
    key list and writes the log only when it is set. *)

From Stdlib Require Import ZArith Strings.Byte.
From stdpp Require Import gmap strings list pretty.

(* ===================================================================== *)
(** ** JavaScript semantics used by the decoder                           *)
(* ===================================================================== *)

Module JS.

(** ToInt32 of ECMAScript: reduce modulo 2^32 into [-2^31, 2^31). *)
Definition ToInt32 (z : Z) : Z := ((z + 2 ^ 31) `mod` 2 ^ 32 - 2 ^ 31)%Z.

(** [a << n], [a >> n], [a | b], [a & b]: both operands go through ToInt32,
    the shift count is taken modulo 32, the result is a signed 32-bit
    integer. *)
Definition shl (a n : Z) : Z := ToInt32 (Z.shiftl (ToInt32 a) (n `mod` 32)).
Definition sar (a n : Z) : Z := Z.shiftr (ToInt32 a) (n `mod` 32).
Definition bor (a b : Z) : Z := ToInt32 (Z.lor (ToInt32 a) (ToInt32 b)).
Definition band (a b : Z) : Z := ToInt32 (Z.land (ToInt32 a) (ToInt32 b)).

(** Number.prototype.toString() on an integer. *)
Definition toString (z : Z) : string := pretty z.

(** Property names every object literal [{}] inherits from
    Object.prototype (ECMAScript 5.1, 15.2.4, and the Annex B accessors
    every browser ships).  The [in] operator sees them. *)
Definition Object_prototype : list string :=
  [ "constructor"; "toString"; "toLocaleString"; "valueOf";
    "hasOwnProperty"; "isPrototypeOf"; "propertyIsEnumerable";
    "__proto__"; "__defineGetter__"; "__defineSetter__";
    "__lookupGetter__"; "__lookupSetter__" ]%string.

Definition inherited (key : string) : bool :=
  bool_decide (key ∈ Object_prototype).

(** [key in obj] for an object literal used as a map: own properties
    first, then the prototype chain. *)
Definition has_property {V} (key : string) (obj : gmap string V) : bool :=
  bool_decide (is_Some (obj !! key)) || inherited key.

(** The value of [obj[key]]. *)
Inductive member (V : Type) : Type :=
| Own (v : V)                 (* an own property of the object *)
| Inherited (key : string)    (* the member Object.prototype[key] *)
| Undefined.
Global Arguments Own {V} v.
Global Arguments Inherited {V} key.
Global Arguments Undefined {V}.

Definition get_property {V} (key : string) (obj : gmap string V) : member V :=
  match obj !! key with
  | Some v => Own v
  | None => if inherited key then Inherited key else Undefined
  end.

(** Errors the decoder can raise.  The names are the error kinds of the
    specification; the comments give the JavaScript exception. *)
Inductive error : Type :=
| ReservedOperandByte (b0 : Z)
    (* new Error(numberToHex(b0, 2) + 'is reserved operand value') *)
| OutOfRange
    (* RangeError of a read past the end of the byte region *)
| InvalidKeyLookup (message : string)
    (* new RangeError('CFF ' + name + ' DICT: invalid key: ' + key) *)
| InvalidRegion
    (* RangeError of new DataView(buffer, offset, length) *)
| TypeError_push_of_undefined.
    (* TypeError of [undefined.push(...)] *)

(** Result of running a piece of code: a value, a thrown error, or the
    loop budget of the model ran out (shown below never to happen). *)
Inductive outcome (A : Type) : Type :=
| Ret (a : A)
| Throw (e : error)
| OutOfFuel.
Global Arguments Ret {A} a.
Global Arguments Throw {A} e.
Global Arguments OutOfFuel {A}.

Global Instance outcome_ret : MRet outcome := @Ret.
Global Instance outcome_bind : MBind outcome := λ A B f m,
  match m with
  | Ret a => f a
  | Throw e => Throw e
  | OutOfFuel => OutOfFuel
  end.

(** Code that also writes to the debug log (goog.log.log_info): the outcome
    together with the lines written, oldest first.  Lines written before
    an exception is thrown stay written. *)
Definition logged (A : Type) : Type := (outcome A * list string)%type.

Global Instance logged_ret : MRet logged := λ A a, (Ret a, []).
Global Instance logged_bind : MBind logged := λ A B f m,
  match m with
  | (Ret a, l) => let '(r, l') := f a in (r, l ++ l')
  | (Throw e, l) => (Throw e, l)
  | (OutOfFuel, l) => (OutOfFuel, l)
  end.

Global Instance outcome_fmap : FMap outcome := λ A B f m,
  match m with
  | Ret a => Ret (f a)
  | Throw e => Throw e
  | OutOfFuel => OutOfFuel
  end.

Definition lift {A} (m : outcome A) : logged A := (m, []).
Definition throw {A} (e : error) : logged A := (Throw e, []).
Definition log_info (line : string) : logged unit := (Ret (), [line]).

End JS.
Import JS.

(* ===================================================================== *)
(** ** The byte cursor                                                    *)
(* ===================================================================== *)

Module BinaryFontEditor.

(** Modelled from the spec: tachyfont.BinaryFontEditor is required by the
    decoder but its source is not part of the files at hand.  Section 4.1
    of the specification gives its contract: a current offset over a
    region of fixed length and one operation that reads the next unsigned
    byte and advances the offset by one, failing with OutOfRange when no
    byte remains. *)
Record t : Type := make {
  dataView : list byte;     (* the bytes of the DataView *)
  baseOffset : nat;
  offset : nat
}.

(** The unsigned value of a byte, 0..255. *)
Definition byte_value (b : byte) : Z := Z.of_N (Byte.to_N b).

(** The byte under the cursor, if any, and the cursor [n] bytes on. *)
Definition next_byte (binEd : t) : option byte :=
  dataView binEd !! (baseOffset binEd + offset binEd)%nat.

Definition skip (n : nat) (binEd : t) : t :=
  make (dataView binEd) (baseOffset binEd) (n + offset binEd).

(** Two cursors over the same bytes. *)
Definition same_view (binEd binEd' : t) : Prop :=
  dataView binEd' = dataView binEd ∧ baseOffset binEd' = baseOffset binEd.

(** Modelled from the spec: [binEd.getUint8()], section 4.1. *)
Definition getUint8 (binEd : t) : outcome (Z * t) :=
  match next_byte binEd with
  | Some b => Ret (byte_value b, skip 1 binEd)
  | None => Throw OutOfRange
  end.

End BinaryFontEditor.

(** [new DataView(buffer, offset, length)]: the view is the [length] bytes
    of [buffer] from [offset]; a region that does not fit raises a
    RangeError. *)
Definition new_DataView (buffer : list byte) (offset length : nat)
  : outcome (list byte) :=
  if (offset + length <=? List.length buffer)%nat
  then Ret (take length (drop offset buffer))
  else Throw InvalidRegion.

(* ===================================================================== *)
(** ** The decoder                                                        *)
(* ===================================================================== *)

Module CffDict.

Import BinaryFontEditor.

(** An operand: an integer of one of the four integer encodings, or the
    text of a real number of the nibble encoding. *)
Inductive Operand : Type :=
| Int (z : Z)
| Real (s : string).

(** String(operand) and String(operands), as string concatenation in the
    log lines computes them. *)
Definition Operand_toString (x : Operand) : string :=
  match x with
  | Int z => JS.toString z
  | Real s => s
  end.

Definition Array_toString (xs : list Operand) : string :=
  String.concat "," (Operand_toString <$> xs).

(** tachyfont.CffDict.keyValuePair_ *)
Record keyValuePair_ : Type := new_keyValuePair_ {
  key : string;
  value : list Operand
}.

(** The object built by [new tachyfont.CffDict(name, dataView)].  [keys_]
    is [None] while the field is undefined. *)
Record t : Type := make {
  name_ : string;
  dataView_ : list byte;
  keys_ : option (list string);
  dict_ : gmap string (list Operand);
  dictOperators_ : option (gmap string string)
}.

(* ------------------------------------------------------------------- *)
(** *** parseNibbles_                                                    *)
(* ------------------------------------------------------------------- *)

(** What one pass through the body of the [for] loop does. *)
Inductive nibble_result : Type :=
| Next (operand : string)       (* fall out of the if-chain, go on *)
| Return (operand : string).    (* [return operand] *)

Definition parseNibble (nibble : Z) (operand : string) : nibble_result :=
  if (nibble <=? 9)%Z then Next (operand +:+ JS.toString nibble)
  else if (nibble =? 10)%Z then Next (operand +:+ ".")
  else if (nibble =? 11)%Z then Next (operand +:+ "E")
  else if (nibble =? 12)%Z then Next (operand +:+ "-E")
  else if (nibble =? 14)%Z then Next (operand +:+ "-")
  else if (nibble =? 15)%Z then Return operand
  else Next operand.

(** The [while (operandsCnt++ <= 48)] loop; [fuel] bounds the number of
    iterations of the model. *)
Fixpoint parseNibbles_loop (fuel : nat) (binEd : BinaryFontEditor.t)
    (operand : string) (operandsCnt : nat)
  : outcome (string * BinaryFontEditor.t) :=
  if (operandsCnt <=? 48)%nat then
    let operandsCnt := S operandsCnt in
    match fuel with
    | O => OutOfFuel
    | S fuel =>
        match getUint8 binEd with
        | Ret (aByte, binEd) =>
            let nibbles0 := JS.sar aByte 4 in
            let nibbles1 := JS.band aByte 15 in
            match parseNibble nibbles0 operand with
            | Return operand => Ret (operand, binEd)
            | Next operand =>
                match parseNibble nibbles1 operand with
                | Return operand => Ret (operand, binEd)
                | Next operand =>
                    parseNibbles_loop fuel binEd operand operandsCnt
                end
            end
        | Throw e => Throw e
        | OutOfFuel => OutOfFuel
        end
    end
  else Ret (operand, binEd).

Definition parseNibbles_ (binEd : BinaryFontEditor.t)
  : outcome (string * BinaryFontEditor.t) :=
  parseNibbles_loop 49 binEd EmptyString 0.

(* ------------------------------------------------------------------- *)
(** *** readOperandsOperator_                                            *)
(* ------------------------------------------------------------------- *)

(** [(b0 >= 22 && b0 <= 27) || b0 == 31 || b0 == 255] *)
Definition reserved (b0 : Z) : bool :=
  ((22 <=? b0)%Z && (b0 <=? 27)%Z) || (b0 =? 31)%Z || (b0 =? 255)%Z.

(** The if-chain that decodes one operand from its leading byte;
    [None] when no branch assigns [operand]. *)
Definition readOperand (b0 : Z) (binEd : BinaryFontEditor.t)
  : outcome (option Operand * BinaryFontEditor.t) :=
  if (32 <=? b0)%Z && (b0 <=? 246)%Z then
    Ret (Some (Int (b0 - 139)), binEd)
  else if (247 <=? b0)%Z && (b0 <=? 250)%Z then
    '(b1, binEd) ← getUint8 binEd;
    Ret (Some (Int ((b0 - 247) * 256 + b1 + 108)), binEd)
  else if (251 <=? b0)%Z && (b0 <=? 254)%Z then
    '(b1, binEd) ← getUint8 binEd;
    Ret (Some (Int (- (b0 - 251) * 256 - b1 - 108)), binEd)
  else if (b0 =? 28)%Z then
    '(b1, binEd) ← getUint8 binEd;
    '(b2, binEd) ← getUint8 binEd;
    Ret (Some (Int (JS.bor (JS.shl b1 8) b2)), binEd)
  else if (b0 =? 29)%Z then
    '(b1, binEd) ← getUint8 binEd;
    '(b2, binEd) ← getUint8 binEd;
    '(b3, binEd) ← getUint8 binEd;
    '(b4, binEd) ← getUint8 binEd;
    Ret (Some (Int (JS.bor (JS.bor (JS.bor (JS.shl b1 24) (JS.shl b2 16))
                                   (JS.shl b3 8)) b4)), binEd)
  else if (b0 =? 30)%Z then
    '(operand, binEd) ← parseNibbles_ binEd;
    Ret (Some (Real operand), binEd)
  else Ret (None, binEd).

(** The operator part: [op = b0], the escape byte 12, [op.toString()]. *)
Definition readOperator (b0 : Z) (binEd : BinaryFontEditor.t)
  : outcome (string * BinaryFontEditor.t) :=
  if (b0 =? 12)%Z then
    '(op, binEd) ← getUint8 binEd;
    Ret ("12 " +:+ JS.toString op, binEd)
  else Ret (EmptyString +:+ JS.toString b0, binEd).

Section DebugFlag.

(** goog.DEBUG, the compile-time flag of the Closure library (true
    unless the build overrides it). *)
Variable DEBUG : bool.

(** The text String(Object.prototype[key]) of an inherited member; it
    depends on the JavaScript engine. *)
Variable inherited_text : string → string.

(** The [while (operands.length <= 48)] loop. *)
Fixpoint readOperandsOperator_loop (fuel : nat)
    (binEd : BinaryFontEditor.t) (operands : list Operand)
  : logged (keyValuePair_ * BinaryFontEditor.t) :=
  if (length operands <=? 48)%nat then
    match fuel with
    | O => (OutOfFuel, [])
    | S fuel =>
        '(b0, binEd) ← lift (getUint8 binEd);
        if reserved b0 then
          _ ← (if DEBUG
               then log_info (JS.toString b0 +:+ " is a reserved operand value")
               else mret ());
          throw (ReservedOperandByte b0)
        else
          '(operand, binEd) ← lift (readOperand b0 binEd);
          match operand with
          | Some operand =>
              readOperandsOperator_loop fuel binEd (operands ++ [operand])
          | None =>
              '(operator, binEd) ← lift (readOperator b0 binEd);
              mret (new_keyValuePair_ operator operands, binEd)
          end
    end
  else mret (new_keyValuePair_ EmptyString operands, binEd).

Definition readOperandsOperator_ (binEd : BinaryFontEditor.t)
  : logged (keyValuePair_ * BinaryFontEditor.t) :=
  readOperandsOperator_loop 49 binEd [].

(* ----------------------------------------------------------------- *)
(** *** The constructor, init_ and loadDict                            *)
(* ----------------------------------------------------------------- *)

Definition new (name : string) (dataView : list byte) : t :=
  make name dataView (if DEBUG then Some [] else None) ∅ None.

Definition setOperators (this : t)
    (dictOperators : option (gmap string string)) : t :=
  make (name_ this) (dataView_ this) (keys_ this) (dict_ this)
       dictOperators.

(** The label of the log line of [init_]: the logical name when the
    operator map is there and has the key, else the key itself. *)
Definition label (this : t) (key : string) : string :=
  match dictOperators_ this with
  | Some dictOperators =>
      if JS.has_property key dictOperators then
        match JS.get_property key dictOperators with
        | Own name => name
        | Inherited k => inherited_text k
        | Undefined => "undefined"
        end
      else key
  | None => key
  end.

(** [this.keys_.push(key)] *)
Definition keys_push (this : t) (key : string) : logged t :=
  match keys_ this with
  | Some keys =>
      mret (make (name_ this) (dataView_ this) (Some (keys ++ [key]))
                 (dict_ this) (dictOperators_ this))
  | None => throw TypeError_push_of_undefined
  end.

(** [this.dict_[key] = value] *)
Definition dict_set (this : t) (key : string) (value : list Operand) : t :=
  make (name_ this) (dataView_ this) (keys_ this)
       (<[key := value]> (dict_ this)) (dictOperators_ this).

(** The [while (binEd.offset < this.dataView_.byteLength)] loop. *)
Fixpoint init_loop (fuel : nat) (this : t) (binEd : BinaryFontEditor.t)
  : logged t :=
  if (offset binEd <? length (dataView_ this))%nat then
    match fuel with
    | O => (OutOfFuel, [])
    | S fuel =>
        '(keyValuePair, binEd) ← readOperandsOperator_ binEd;
        _ ← (if DEBUG
             then log_info ("  " +:+ Array_toString (value keyValuePair)
                          +:+ " " +:+ label this (key keyValuePair))
             else mret ());
        this ← keys_push this (key keyValuePair);
        let this := dict_set this (key keyValuePair) (value keyValuePair) in
        init_loop fuel this binEd
    end
  else mret this.

Definition init_ (this : t) : logged t :=
  init_loop (length (dataView_ this)) this
            (BinaryFontEditor.make (dataView_ this) 0 0).

Definition loadDict (name : string) (buffer : list byte)
    (offset length : nat) (opt_dictOperators : option (gmap string string))
  : logged t :=
  dataView ← lift (new_DataView buffer offset length);
  let dict := new name dataView in
  let dict := if DEBUG then setOperators dict opt_dictOperators else dict in
  init_ dict.

(** The object [loadDict] hands to [init_]. *)
Definition before_init (name : string) (dataView : list byte)
    (opt_dictOperators : option (gmap string string)) : t :=
  let dict := new name dataView in
  if DEBUG then setOperators dict opt_dictOperators else dict.

(* ----------------------------------------------------------------- *)
(** *** The runs of the two loops, as step relations                   *)
(* ----------------------------------------------------------------- *)

(** One iteration of the scanner loop that ends in [continue]: a
    leading byte that is not reserved, decoded to an operand which is
    pushed. *)
Inductive operand_step
  : BinaryFontEditor.t * list Operand →
    BinaryFontEditor.t * list Operand → Prop :=
| operand_step_intro binEd operands b0 binEd1 operand binEd2 :
    length operands ≤ 48 →
    getUint8 binEd = Ret (b0, binEd1) →
    reserved b0 = false →
    readOperand b0 binEd1 = Ret (Some operand, binEd2) →
    operand_step (binEd, operands) (binEd2, operands ++ [operand]).

(** One iteration of the loop of [init_] that runs to its end: a scan
    that returns, a key pushed, a value stored. *)
Inductive token_step
  : t * BinaryFontEditor.t → t * BinaryFontEditor.t → Prop :=
| token_step_intro this binEd keyValuePair binEd' this' :
    offset binEd < length (dataView_ this) →
    fst (readOperandsOperator_ binEd) = Ret (keyValuePair, binEd') →
    fst (keys_push this (key keyValuePair)) = Ret this' →
    token_step (this, binEd)
               (dict_set this' (key keyValuePair) (value keyValuePair),
                binEd').

(** The key/value pairs the scanner produces over a region of
    [byteLength] bytes, in order: the scanner called again and again
    from where it stopped, as [init_] calls it. *)
Fixpoint scanAll (fuel : nat) (byteLength : nat)
    (binEd : BinaryFontEditor.t) : outcome (list keyValuePair_) :=
  if (offset binEd <? byteLength)%nat then
    match fuel with
    | O => OutOfFuel
    | S fuel =>
        '(keyValuePair, binEd) ← fst (readOperandsOperator_ binEd);
        keyValuePairs ← scanAll fuel byteLength binEd;
        Ret (keyValuePair :: keyValuePairs)
    end
  else Ret [].

End DebugFlag.

Global Arguments parseNibbles_ : simpl never.
Global Arguments readOperandsOperator_ : simpl never.
Global Arguments init_ : simpl never.
Global Arguments loadDict : simpl never.

(** tachyfont.CffDict.TOP_DICT_OPERATORS, the map a caller passes to
    [loadDict] for the Top DICT (defined when goog.DEBUG). *)
Definition TOP_DICT_OPERATORS : gmap string string :=
  list_to_map
    [ ("0", "version"); ("1", "Notice"); ("12 0", "Copyright");
      ("2", "FullName"); ("3", "FamilyName"); ("4", "Weight");
      ("5", "FontBBox"); ("6", "BlueValues"); ("7", "OtherBlue");
      ("10", "StdHW"); ("11", "StdVW"); ("12 1", "IsFixedPitch");
      ("12 2", "ItalicAngle"); ("12 3", "UnderlinePosition");
      ("12 4", "UnderlineThickness"); ("12 5", "PaintType");
      ("12 6", "CharstringType"); ("12 7", "FontMatrix");
      ("12 8", "StrokeWidth"); ("12 12", "StemSnapH");
      ("12 13", "StemSnapV"); ("12 17", "LanguageGroup");
      ("13", "UniqueID"); ("14", "XUID"); ("15", "charset");
      ("16", "Encoding"); ("17", "CharStrings"); ("18", "Private");
      ("19", "Subrs"); ("20", "DefaultWidthX"); ("21", "NominalWidthX");
      ("12 20", "SyntheticBase"); ("12 21", "PostScript");
      ("12 22", "BaseFontName"); ("12 23", "BaseFontBlen");
      ("12 30", "ROS"); ("12 31", "CIDFontVersion");
      ("12 32", "CIDFontRevision"); ("12 33", "CIDFontType");
      ("12 34", "CIDCount"); ("12 35", "UIDBase"); ("12 36", "FDArray");
      ("12 37", "FDSelect"); ("12 38", "FontName") ]%string.

(** The operator tokens of the specification: the decimal text of a
    one-byte operator, "12 " and the decimal text of the second byte of
    an escape operator; and the empty text a scan returns when it stops
    at the operand bound. *)
Inductive OperatorToken : Type :=
| Operator (b : byte)
| Escape (b : byte)
| NoOperator.

Definition token_string (token : OperatorToken) : string :=
  match token with
  | Operator b => JS.toString (byte_value b)
  | Escape b => "12 " +:+ JS.toString (byte_value b)
  | NoOperator => EmptyString
  end.

(** An engine text for inherited members, for the examples. *)
Definition no_text : string → string := λ _, EmptyString.

(** The value stored by the last pair with key [token], if any. *)
Definition last_value (token : string) (keyValuePairs : list keyValuePair_)
  : option (list Operand) :=
  value <$> List.find (λ kv, bool_decide (key kv = token))
                      (rev keyValuePairs).

(* ------------------------------------------------------------------- *)
(** *** The accessors                                                    *)
(* ------------------------------------------------------------------- *)

Definition getName (this : t) : string := name_ this.

Definition getKeys (this : t) : option (list string) := keys_ this.

(** [get]: the object after the call and what the call produced. *)
Definition get (this : t) (key : string)
  : t * outcome (JS.member (list Operand)) :=
  if JS.has_property key (dict_ this) then
    (this, Ret (JS.get_property key (dict_ this)))
  else
    (this,
     Throw (InvalidKeyLookup
              ("CFF " +:+ name_ this +:+ " DICT: invalid key: " +:+ key))).

(* ------------------------------------------------------------------- *)
(** *** Notions for the properties of decoded values and of regions      *)
(* ------------------------------------------------------------------- *)

(** The characters [parseNibbles_] appends, and the texts made of them. *)
Definition nibble_chars : list Ascii.ascii :=
  String.list_ascii_of_string "0123456789.E-".

Definition nibble_text (text : string) : bool :=
  forallb (λ c, bool_decide (c ∈ nibble_chars))
          (String.list_ascii_of_string text).

(** What an operand of a decoded Dict can be: a signed 32-bit integer or a
    text over the nibble characters. *)
Definition Operand_ok (operand : Operand) : Prop :=
  match operand with
  | Int z => (- 2 ^ 31 ≤ z ≤ 2 ^ 31 - 1)%Z
  | Real text => nibble_text text = true
  end.

(** [shifted n binEd1 binEd2]: the second cursor stands [n] bytes further
    than the first and finds there every byte the first one can read. *)
Definition shifted (n : nat) (binEd1 binEd2 : BinaryFontEditor.t) : Prop :=
  baseOffset binEd2 = baseOffset binEd1
  ∧ offset binEd2 = offset binEd1 + n
  ∧ ∀ i b, dataView binEd1 !! i = Some b →
           dataView binEd2 !! (i + n) = Some b.

(** A cursor that has not left its bytes. *)
Definition in_view (binEd : BinaryFontEditor.t) : Prop :=
  baseOffset binEd + offset binEd ≤ length (dataView binEd).

(** The line [init_] logs for a key/value pair. *)
Definition log_line (label : string) (keyValuePair : keyValuePair_) : string :=
  "  " +:+ Array_toString (value keyValuePair) +:+ " " +:+ label.

End CffDict.

(* ===================================================================== *)
(** ** Basic facts about the cursor and the two inner decoders            *)
(* ===================================================================== *)

Import BinaryFontEditor CffDict.

Lemma byte_value_range b : (0 ≤ byte_value b ≤ 255)%Z.
Proof. unfold byte_value. pose proof (Byte.to_N_bounded b). lia. Qed.

Lemma getUint8_Ret binEd z binEd' :
  getUint8 binEd = Ret (z, binEd') ↔
  ∃ b, next_byte binEd = Some b
       ∧ z = byte_value b
       ∧ binEd' = skip 1 binEd.
Proof.
  unfold getUint8. destruct (next_byte binEd) as [b|].
  - split.
    + intros [= <- <-]. by exists b.
    + by intros (b' & [= <-] & -> & ->).
  - split; [done|]. by intros (b' & [=] & _).
Qed.

Lemma getUint8_next binEd b :
  next_byte binEd = Some b →
  getUint8 binEd = Ret (byte_value b, skip 1 binEd).
Proof. unfold getUint8. by intros ->. Qed.

Lemma getUint8_fuel binEd : getUint8 binEd ≠ OutOfFuel.
Proof. unfold getUint8. by destruct (next_byte binEd). Qed.

Lemma getUint8_same_view binEd z binEd' :
  getUint8 binEd = Ret (z, binEd') →
  same_view binEd binEd' ∧ offset binEd' = S (offset binEd).
Proof. intros (b & _ & _ & ->)%getUint8_Ret. by repeat split. Qed.

Lemma same_view_refl binEd : same_view binEd binEd.
Proof. by split. Qed.

Lemma same_view_trans e1 e2 e3 :
  same_view e1 e2 → same_view e2 e3 → same_view e1 e3.
Proof. intros [? ?] [? ?]. split; congruence. Qed.

Lemma skip_skip n m binEd : skip n (skip m binEd) = skip (n + m) binEd.
Proof. unfold skip. simpl. f_equal. lia. Qed.

Lemma next_byte_skip n binEd :
  next_byte (skip n binEd)
  = dataView binEd !! (baseOffset binEd + (n + offset binEd))%nat.
Proof. done. Qed.

(** Inversion of a successful read: names the byte and rewrites the
    cursor. *)
Ltac read_inv H :=
  let b := fresh "b" in
  let Hb := fresh "Hb" in
  apply getUint8_Ret in H as (b & Hb & -> & ->).

Ltac case_read binEd :=
  let H := fresh "Hread" in
  destruct (getUint8 binEd) as [[? ?]| |] eqn:H;
  [ read_inv H | | exfalso; exact (getUint8_fuel _ H) ].

Lemma parseNibbles_loop_Ret fuel binEd operand cnt text binEd' :
  parseNibbles_loop fuel binEd operand cnt = Ret (text, binEd') →
  same_view binEd binEd' ∧ offset binEd ≤ offset binEd'.
Proof.
  revert binEd operand cnt.
  induction fuel as [|fuel IH]; intros binEd operand cnt; simpl;
    destruct (cnt <=? 48); try done.
  - intros [= _ <-]. split; [apply same_view_refl | done].
  - case_read binEd; [|done].
    destruct (parseNibble _ operand) as [operand1|operand1].
    + destruct (parseNibble _ operand1) as [operand2|operand2].
      * intros [Hv Ho]%IH. split; [done | simpl in Ho; lia].
      * intros [= _ <-]. split; [done | simpl; lia].
    + intros [= _ <-]. split; [done | simpl; lia].
  - intros [= _ <-]. split; [apply same_view_refl | done].
Qed.

Lemma parseNibbles_loop_fuel fuel binEd operand cnt :
  49 - cnt ≤ fuel → parseNibbles_loop fuel binEd operand cnt ≠ OutOfFuel.
Proof.
  revert binEd operand cnt.
  induction fuel as [|fuel IH]; intros binEd operand cnt Hfuel; simpl;
    destruct (cnt <=? 48) eqn:Hcnt; try done.
  - apply Nat.leb_le in Hcnt. lia.
  - apply Nat.leb_le in Hcnt. case_read binEd; [|done].
    destruct (parseNibble _ operand); [|done].
    destruct (parseNibble _ _); [|done].
    apply IH. lia.
Qed.

Lemma parseNibbles_Ret binEd text binEd' :
  parseNibbles_ binEd = Ret (text, binEd') →
  same_view binEd binEd' ∧ offset binEd ≤ offset binEd'.
Proof. apply parseNibbles_loop_Ret. Qed.

Lemma parseNibbles_fuel binEd : parseNibbles_ binEd ≠ OutOfFuel.
Proof. apply parseNibbles_loop_fuel. lia. Qed.

Lemma bind_Ret {A B} (m : outcome A) (f : A → outcome B) (b : B) :
  m ≫= f = Ret b ↔ ∃ a, m = Ret a ∧ f a = Ret b.
Proof.
  destruct m as [a| |]; simpl.
  - split; [by exists a | by intros (a' & [= <-] & ?)].
  - split; [done | by intros (a' & [=] & _)].
  - split; [done | by intros (a' & [=] & _)].
Qed.

Lemma bind_fuel {A B} (m : outcome A) (f : A → outcome B) :
  m ≠ OutOfFuel → (∀ a, f a ≠ OutOfFuel) → m ≫= f ≠ OutOfFuel.
Proof. intros Hm Hf. destruct m as [a| |]; [apply Hf | done | done]. Qed.

(** The branches of [readOperand], by the range of the leading byte. *)
Lemma readOperand_cases b0 binEd :
  ((32 ≤ b0 ≤ 246)%Z
   ∧ readOperand b0 binEd = Ret (Some (Int (b0 - 139)), binEd))
  ∨ ((247 ≤ b0 ≤ 250)%Z
     ∧ readOperand b0 binEd
       = '(b1, binEd) ← getUint8 binEd;
         Ret (Some (Int ((b0 - 247) * 256 + b1 + 108)), binEd))
  ∨ ((251 ≤ b0 ≤ 254)%Z
     ∧ readOperand b0 binEd
       = '(b1, binEd) ← getUint8 binEd;
         Ret (Some (Int (- (b0 - 251) * 256 - b1 - 108)), binEd))
  ∨ (b0 = 28%Z
     ∧ readOperand b0 binEd
       = '(b1, binEd) ← getUint8 binEd;
         '(b2, binEd) ← getUint8 binEd;
         Ret (Some (Int (JS.bor (JS.shl b1 8) b2)), binEd))
  ∨ (b0 = 29%Z
     ∧ readOperand b0 binEd
       = '(b1, binEd) ← getUint8 binEd;
         '(b2, binEd) ← getUint8 binEd;
         '(b3, binEd) ← getUint8 binEd;
         '(b4, binEd) ← getUint8 binEd;
         Ret (Some (Int (JS.bor (JS.bor (JS.bor (JS.shl b1 24) (JS.shl b2 16))
                                        (JS.shl b3 8)) b4)), binEd))
  ∨ (b0 = 30%Z
     ∧ readOperand b0 binEd
       = '(operand, binEd) ← parseNibbles_ binEd;
         Ret (Some (Real operand), binEd))
  ∨ ((b0 < 28 ∨ b0 = 31 ∨ 254 < b0)%Z
     ∧ readOperand b0 binEd = Ret (None, binEd)).
Proof.
  unfold readOperand.
  destruct ((32 <=? b0)%Z && (b0 <=? 246)%Z) eqn:H1.
  { left. split; [lia | done]. }
  destruct ((247 <=? b0)%Z && (b0 <=? 250)%Z) eqn:H2.
  { right; left. split; [lia | done]. }
  destruct ((251 <=? b0)%Z && (b0 <=? 254)%Z) eqn:H3.
  { do 2 right; left. split; [lia | done]. }
  destruct (b0 =? 28)%Z eqn:H4.
  { do 3 right; left. split; [lia | done]. }
  destruct (b0 =? 29)%Z eqn:H5.
  { do 4 right; left. split; [lia | done]. }
  destruct (b0 =? 30)%Z eqn:H6.
  { do 5 right; left. split; [lia | done]. }
  do 6 right. split; [lia | done].
Qed.

(** Inversion of a chain of binds that returned. *)
Ltac bind_inv H :=
  repeat
    (let a := fresh "a" in
     let Hm := fresh "Hm" in
     apply bind_Ret in H as ([? ?] & Hm & H);
     cbv beta iota in H).

Lemma readOperand_Ret b0 binEd operand binEd' :
  readOperand b0 binEd = Ret (operand, binEd') →
  same_view binEd binEd' ∧ offset binEd ≤ offset binEd'.
Proof.
  destruct (readOperand_cases b0 binEd)
    as [[_ ->]|[[_ ->]|[[_ ->]|[[_ ->]|[[_ ->]|[[_ ->]|[_ ->]]]]]]];
    intros H; bind_inv H;
    repeat match goal with
           | Hr : getUint8 _ = Ret _ |- _ => read_inv Hr
           | Hp : parseNibbles_ _ = Ret _ |- _ =>
               apply parseNibbles_Ret in Hp as [? ?]
           end;
    injection H as _ <-; (split; [done | simpl; lia]).
Qed.

Lemma readOperand_fuel b0 binEd : readOperand b0 binEd ≠ OutOfFuel.
Proof.
  destruct (readOperand_cases b0 binEd)
    as [[_ ->]|[[_ ->]|[[_ ->]|[[_ ->]|[[_ ->]|[[_ ->]|[_ ->]]]]]]];
    repeat first
      [ discriminate
      | apply getUint8_fuel
      | apply parseNibbles_fuel
      | apply bind_fuel; [|intros [? ?]; cbv beta iota] ].
Qed.

Lemma readOperator_Ret b0 binEd operator binEd' :
  readOperator b0 binEd = Ret (operator, binEd') →
  same_view binEd binEd' ∧ offset binEd ≤ offset binEd'.
Proof.
  unfold readOperator. case_match.
  - case_read binEd; simpl; [|done].
    intros [= _ <-]. split; [done | simpl; lia].
  - intros [= _ <-]. split; [apply same_view_refl | done].
Qed.

Lemma readOperator_fuel b0 binEd : readOperator b0 binEd ≠ OutOfFuel.
Proof. unfold readOperator. case_match; [|done]. by case_read binEd. Qed.

(* ===================================================================== *)
(** ** The scanner loop, one iteration at a time                          *)
(* ===================================================================== *)

Lemma bind_lift {A B} (m : outcome A) (f : A → logged B) :
  lift m ≫= f
  = match m with
    | Ret a => f a
    | Throw e => (Throw e, [])
    | OutOfFuel => (OutOfFuel, [])
    end.
Proof.
  destruct m; try done. unfold mbind, logged_bind, lift. by destruct (f a).
Qed.

Lemma toString_byte_nonempty b : JS.toString (byte_value b) ≠ EmptyString.
Proof. by destruct b. Qed.

Lemma token_string_inherited token : JS.inherited (token_string token) = false.
Proof. destruct token as [b|b|]; [| |done]; by destruct b. Qed.

Section Scanner.

Variable DEBUG : bool.

Lemma loop_exit fuel binEd operands :
  48 < length operands →
  readOperandsOperator_loop DEBUG fuel binEd operands
  = (Ret (new_keyValuePair_ EmptyString operands, binEd), []).
Proof.
  intros Hlen. destruct fuel; simpl;
    destruct (length operands <=? 48) eqn:Hle; try done;
    apply Nat.leb_le in Hle; lia.
Qed.

Lemma loop_unfold fuel binEd operands :
  readOperandsOperator_loop DEBUG (S fuel) binEd operands
  = if (length operands <=? 48)%nat then
      '(b0, binEd) ← lift (getUint8 binEd);
      if reserved b0 then
        _ ← (if DEBUG
             then log_info (JS.toString b0 +:+ " is a reserved operand value")
             else mret ());
        throw (ReservedOperandByte b0)
      else
        '(operand, binEd) ← lift (readOperand b0 binEd);
        match operand with
        | Some operand =>
            readOperandsOperator_loop DEBUG fuel binEd (operands ++ [operand])
        | None =>
            '(operator, binEd) ← lift (readOperator b0 binEd);
            mret (new_keyValuePair_ operator operands, binEd)
        end
    else mret (new_keyValuePair_ EmptyString operands, binEd).
Proof. done. Qed.

Lemma loop_body fuel binEd operands :
  length operands ≤ 48 →
  readOperandsOperator_loop DEBUG (S fuel) binEd operands
  = match getUint8 binEd with
    | Ret (b0, binEd) =>
        if reserved b0 then
          (Throw (ReservedOperandByte b0),
           if DEBUG
           then [JS.toString b0 +:+ " is a reserved operand value"]
           else [])
        else
          match readOperand b0 binEd with
          | Ret (Some operand, binEd) =>
              readOperandsOperator_loop DEBUG fuel binEd
                                        (operands ++ [operand])
          | Ret (None, binEd) =>
              match readOperator b0 binEd with
              | Ret (operator, binEd) =>
                  (Ret (new_keyValuePair_ operator operands, binEd), [])
              | Throw e => (Throw e, [])
              | OutOfFuel => (OutOfFuel, [])
              end
          | Throw e => (Throw e, [])
          | OutOfFuel => (OutOfFuel, [])
          end
    | Throw e => (Throw e, [])
    | OutOfFuel => (OutOfFuel, [])
    end.
Proof.
  intros Hlen%Nat.leb_le. rewrite loop_unfold, Hlen, bind_lift.
  destruct (getUint8 binEd) as [[b0 binEd1]| |]; try done.
  destruct (reserved b0).
  { by destruct DEBUG. }
  rewrite bind_lift.
  destruct (readOperand b0 binEd1) as [[[operand|] binEd2]| |]; try done.
  rewrite bind_lift.
  by destruct (readOperator b0 binEd2) as [[operator binEd3]| |].
Qed.

Lemma loop_reserved fuel binEd operands b :
  length operands ≤ 48 →
  next_byte binEd = Some b →
  reserved (byte_value b) = true →
  fst (readOperandsOperator_loop DEBUG (S fuel) binEd operands)
  = Throw (ReservedOperandByte (byte_value b)).
Proof.
  intros Hlen Hb Hres. rewrite loop_body by done.
  by rewrite (getUint8_next _ _ Hb), Hres.
Qed.

Lemma loop_operand fuel s s' :
  operand_step s s' →
  readOperandsOperator_loop DEBUG (S fuel) s.1 s.2
  = readOperandsOperator_loop DEBUG fuel s'.1 s'.2.
Proof.
  intros [binEd operands b0 binEd1 operand binEd2 Hlen Hread Hres Hop].
  cbn [fst snd]. rewrite loop_body by done. by rewrite Hread, Hres, Hop.
Qed.

Lemma readOperand_None b0 binEd binEd' :
  readOperand b0 binEd = Ret (None, binEd') → binEd' = binEd.
Proof.
  destruct (readOperand_cases b0 binEd)
    as [[_ ->]|[[_ ->]|[[_ ->]|[[_ ->]|[[_ ->]|[[_ ->]|[_ ->]]]]]]];
    intros H; bind_inv H; by simplify_eq.
Qed.

(** What a scan that returns has done. *)
Lemma loop_Ret fuel binEd operands keyValuePair binEd' log :
  readOperandsOperator_loop DEBUG fuel binEd operands
  = (Ret (keyValuePair, binEd'), log) →
  log = []
  ∧ same_view binEd binEd'
  ∧ offset binEd ≤ offset binEd'
  ∧ (length operands ≤ 48 → offset binEd < offset binEd')
  ∧ (∃ more, value keyValuePair = operands ++ more)
  ∧ (length operands ≤ 49 → length (value keyValuePair) ≤ 49)
  ∧ (length operands ≤ 49 →
     key keyValuePair = EmptyString ↔ length (value keyValuePair) = 49)
  ∧ (∃ token, key keyValuePair = token_string token).
Proof.
  revert binEd operands.
  induction fuel as [|fuel IH]; intros binEd operands.
  - simpl. destruct (length operands <=? 48) eqn:Hle; [done|].
    apply Nat.leb_gt in Hle. intros [= <- <- <-]. simpl.
    split_and!; try done; try lia.
    + by exists []; rewrite app_nil_r.
    + intros ?. split; [lia | done].
    + by exists NoOperator.
  - destruct (decide (length operands ≤ 48)) as [Hle|Hgt].
    2:{ rewrite loop_exit by lia. intros [= <- <- <-]. simpl.
        split_and!; try done; try lia.
        - by exists []; rewrite app_nil_r.
        - intros ?. split; [lia | done].
        - by exists NoOperator. }
    rewrite loop_body by done.
    case_read binEd; [|done].
    destruct (reserved (byte_value b)); [done|].
    destruct (readOperand _ _) as [[[operand|] binEd2]| |] eqn:Hop;
      try done.
    + apply readOperand_Ret in Hop as [Hv Ho].
      intros (-> & Hv' & Ho' & _ & [more Hmore] & Hmax & Hkey & Htok)%IH.
      rewrite length_app in Hmax, Hkey. simpl in *.
      split_and!; try done; try lia.
      * by eapply same_view_trans.
      * exists (operand :: more). by rewrite Hmore, <- app_assoc.
      * intros ?. apply Hkey. lia.
    + apply readOperand_None in Hop as ->.
      destruct (readOperator _ _) as [[operator binEd3]| |] eqn:Hor;
        try done.
      intros [= <- <- <-]. simpl.
      pose proof (readOperator_Ret _ _ _ _ Hor) as [Hv Ho].
      simpl in Ho.
      assert (operator ≠ EmptyString
              ∧ ∃ token, operator = token_string token) as [Hne Htok].
      { unfold readOperator in Hor. case_match.
        - case_read (skip 1 binEd); [|done]. simplify_eq/=.
          split; [done|]. by exists (Escape b0).
        - simplify_eq/=. split; [apply toString_byte_nonempty|].
          by exists (Operator b). }
      split_and!; try done; try lia.
      * by exists []; rewrite app_nil_r.
      * intros _. split; [done | lia].
Qed.

Lemma loop_fuel fuel binEd operands :
  49 - length operands ≤ fuel →
  fst (readOperandsOperator_loop DEBUG fuel binEd operands) ≠ OutOfFuel.
Proof.
  revert binEd operands.
  induction fuel as [|fuel IH]; intros binEd operands Hfuel.
  - by rewrite loop_exit by lia.
  - destruct (decide (length operands ≤ 48)) as [Hle|Hgt].
    2:{ by rewrite loop_exit by lia. }
    rewrite loop_body by done.
    case_read binEd; [|done].
    destruct (reserved (byte_value b)); [done|].
    destruct (readOperand _ _) as [[[operand|] binEd2]| |] eqn:Hop;
      try done.
    + apply IH. rewrite length_app. simpl. lia.
    + destruct (readOperator _ _) as [[operator binEd3]| |] eqn:Hor;
        try done.
      by apply readOperator_fuel in Hor.
    + by apply readOperand_fuel in Hop.
Qed.

(** The result of the scanner loop does not depend on its budget once
    the budget covers the operands still allowed. *)
Lemma loop_fuel_irrelevant fuel fuel' binEd operands :
  49 - length operands ≤ fuel → 49 - length operands ≤ fuel' →
  readOperandsOperator_loop DEBUG fuel binEd operands
  = readOperandsOperator_loop DEBUG fuel' binEd operands.
Proof.
  revert fuel' binEd operands.
  induction fuel as [|fuel IH]; intros fuel' binEd operands Hf Hf'.
  - by rewrite !loop_exit by lia.
  - destruct (decide (length operands ≤ 48)) as [Hle|Hgt].
    2:{ by rewrite !loop_exit by lia. }
    destruct fuel' as [|fuel']; [lia|].
    rewrite !loop_body by done.
    case_read binEd; [|done].
    destruct (reserved (byte_value b)); [done|].
    destruct (readOperand _ _) as [[[operand|] binEd2]| |] eqn:Hop;
      try done.
    apply IH; rewrite length_app; simpl; lia.
Qed.

Lemma readOperandsOperator_Ret binEd keyValuePair binEd' log :
  readOperandsOperator_ DEBUG binEd = (Ret (keyValuePair, binEd'), log) →
  log = []
  ∧ same_view binEd binEd'
  ∧ offset binEd < offset binEd'
  ∧ length (value keyValuePair) ≤ 49
  ∧ (key keyValuePair = EmptyString ↔ length (value keyValuePair) = 49)
  ∧ (∃ token, key keyValuePair = token_string token).
Proof.
  intros (? & ? & _ & Ho & _ & Hmax & Hkey & Htok)%loop_Ret.
  simpl in *. split_and!; try done.
  - apply Ho. lia.
  - apply Hmax. lia.
  - apply Hkey. lia.
Qed.

Lemma readOperandsOperator_fuel binEd :
  fst (readOperandsOperator_ DEBUG binEd) ≠ OutOfFuel.
Proof. apply loop_fuel. simpl. lia. Qed.

End Scanner.

(* ===================================================================== *)
(** ** The loop of init_                                                  *)
(* ===================================================================== *)

Lemma fst_bind {A B} (m : logged A) (f : A → logged B) :
  fst (m ≫= f) = fst m ≫= (λ a, fst (f a)).
Proof.
  destruct m as [[a| |] l]; try done.
  unfold mbind at 1, logged_bind. simpl. by destruct (f a).
Qed.

Lemma keys_push_Ret this key this' log :
  keys_push this key = (Ret this', log) ↔
  ∃ keys, keys_ this = Some keys ∧ log = []
          ∧ this' = CffDict.make (name_ this) (dataView_ this)
                      (Some (keys ++ [key])) (dict_ this)
                      (dictOperators_ this).
Proof.
  unfold keys_push. destruct (keys_ this) as [keys|].
  - split.
    + intros [= <- <-]. by exists keys.
    + by intros (keys' & [= <-] & -> & ->).
  - split; [done|]. by intros (keys' & [=] & _).
Qed.

Section Init.

Variable DEBUG : bool.
Variable inherited_text : string → string.

Abbreviation init_loop := (CffDict.init_loop DEBUG inherited_text).
Abbreviation token_step := (CffDict.token_step DEBUG).

Lemma init_loop_exit fuel this binEd :
  length (dataView_ this) ≤ offset binEd →
  init_loop fuel this binEd = (Ret this, []).
Proof.
  intros Hoff. destruct fuel; simpl;
    destruct (offset binEd <? length (dataView_ this)) eqn:Hlt; try done;
    apply Nat.ltb_lt in Hlt; lia.
Qed.

Lemma init_loop_body fuel this binEd :
  offset binEd < length (dataView_ this) →
  fst (init_loop (S fuel) this binEd)
  = '(keyValuePair, binEd') ← fst (readOperandsOperator_ DEBUG binEd);
    this' ← fst (keys_push this (key keyValuePair));
    fst (init_loop fuel
           (dict_set this' (key keyValuePair) (value keyValuePair)) binEd').
Proof.
  intros Hoff%Nat.ltb_lt. simpl. rewrite Hoff, fst_bind.
  destruct (fst (readOperandsOperator_ DEBUG binEd))
    as [[keyValuePair binEd']| |]; try done.
  simpl. rewrite fst_bind.
  assert (∀ line, fst (if DEBUG then log_info line else mret ()) = Ret ())
    as -> by (by destruct DEBUG).
  simpl. by rewrite fst_bind.
Qed.

Lemma token_step_init_loop fuel s s' :
  token_step s s' →
  fst (init_loop (S fuel) s.1 s.2) = fst (init_loop fuel s'.1 s'.2).
Proof.
  intros [this binEd keyValuePair binEd' this' Hoff Hscan Hpush].
  cbn [fst snd]. rewrite init_loop_body by done.
  rewrite Hscan. cbn [mbind outcome_bind]. by rewrite Hpush.
Qed.

Lemma token_step_inv s s' :
  token_step s s' →
  dataView_ s'.1 = dataView_ s.1
  ∧ same_view s.2 s'.2
  ∧ offset s.2 < offset s'.2
  ∧ name_ s'.1 = name_ s.1
  ∧ dictOperators_ s'.1 = dictOperators_ s.1.
Proof.
  intros [this binEd keyValuePair binEd' this' Hoff Hscan Hpush]. simpl.
  destruct (readOperandsOperator_ DEBUG binEd) as [r l] eqn:Hr.
  simpl in Hscan. subst r.
  apply readOperandsOperator_Ret in Hr as (_ & Hv & Ho & _).
  destruct (keys_push this _) as [r' l'] eqn:Hp. simpl in Hpush. subst r'.
  apply keys_push_Ret in Hp as (keys & _ & _ & ->). done.
Qed.

Lemma init_loop_fuel fuel this binEd :
  length (dataView_ this) - offset binEd ≤ fuel →
  fst (init_loop fuel this binEd) ≠ OutOfFuel.
Proof.
  revert this binEd.
  induction fuel as [|fuel IH]; intros this binEd Hfuel.
  - by rewrite init_loop_exit by lia.
  - destruct (decide (offset binEd < length (dataView_ this))) as [Hlt|Hge].
    2:{ by rewrite init_loop_exit by lia. }
    rewrite init_loop_body by done.
    destruct (readOperandsOperator_ DEBUG binEd)
      as [[[keyValuePair binEd']| |] l] eqn:Hscan; simpl; try done.
    + destruct (keys_push this _) as [[this'| |] l'] eqn:Hpush;
        simpl; try done.
      * apply readOperandsOperator_Ret in Hscan as (_ & _ & Ho & _).
        apply keys_push_Ret in Hpush as (keys & _ & _ & ->).
        apply IH. simpl. lia.
      * unfold keys_push in Hpush. by destruct (keys_ this).
    + pose proof (readOperandsOperator_fuel DEBUG binEd) as Hf.
      by rewrite Hscan in Hf.
Qed.

Lemma init_loop_fuel_irrelevant fuel fuel' this binEd :
  length (dataView_ this) - offset binEd ≤ fuel →
  length (dataView_ this) - offset binEd ≤ fuel' →
  fst (init_loop fuel this binEd) = fst (init_loop fuel' this binEd).
Proof.
  revert fuel' this binEd.
  induction fuel as [|fuel IH]; intros fuel' this binEd Hf Hf'.
  - by rewrite !init_loop_exit by lia.
  - destruct (decide (offset binEd < length (dataView_ this))) as [Hlt|Hge].
    2:{ by rewrite !init_loop_exit by lia. }
    destruct fuel' as [|fuel']; [lia|].
    rewrite !init_loop_body by done.
    destruct (readOperandsOperator_ DEBUG binEd)
      as [[[keyValuePair binEd']| |] l] eqn:Hscan; simpl; try done.
    destruct (keys_push this _) as [[this'| |] l'] eqn:Hpush;
      simpl; try done.
    apply readOperandsOperator_Ret in Hscan as (_ & _ & Ho & _).
    apply keys_push_Ret in Hpush as (keys & _ & _ & ->).
    apply IH; simpl; lia.
Qed.

(** [init_] never exhausts the budget the model gives it. *)
Lemma init_fuel this : fst (init_ DEBUG inherited_text this) ≠ OutOfFuel.
Proof. apply init_loop_fuel. simpl. lia. Qed.

Lemma loadDict_unfold name buffer offset length opt_dictOperators :
  fst (loadDict DEBUG inherited_text name buffer offset length
                opt_dictOperators)
  = dataView ← new_DataView buffer offset length;
    fst (init_ DEBUG inherited_text
           (before_init DEBUG name dataView opt_dictOperators)).
Proof. unfold loadDict. by rewrite fst_bind. Qed.

(** [loadDict] always ends: it returns a Dict or throws. *)
Lemma loadDict_fuel name buffer offset length opt_dictOperators :
  fst (loadDict DEBUG inherited_text name buffer offset length
                opt_dictOperators) ≠ OutOfFuel.
Proof.
  rewrite loadDict_unfold. unfold new_DataView.
  case_match; [|done]. apply init_fuel.
Qed.

End Init.

(* ===================================================================== *)
(** ** Reserved leading bytes                                             *)
(* ===================================================================== *)

Lemma reserved_spec z :
  reserved z = true ↔ z ∈ [22; 23; 24; 25; 26; 27; 31; 255]%Z.
Proof.
  unfold reserved. rewrite !elem_of_cons, elem_of_nil.
  rewrite !orb_true_iff, andb_true_iff, !Z.leb_le, !Z.eqb_eq. lia.
Qed.

Lemma operand_steps_inv s s' :
  rtc operand_step s s' →
  same_view s.1 s'.1 ∧ offset s.1 ≤ offset s'.1.
Proof.
  induction 1 as [s|s1 s2 s3 Hstep _ [IHv IHo]].
  { split; [apply same_view_refl | done]. }
  destruct Hstep as [binEd operands b0 binEd1 operand binEd2 _ Hread _ Hop].
  simpl in *.
  apply getUint8_same_view in Hread as [Hv1 Ho1].
  apply readOperand_Ret in Hop as [Hv2 Ho2].
  split; [|lia].
  eapply same_view_trans; [|exact IHv]. by eapply same_view_trans.
Qed.

Lemma token_steps_inv DEBUG s s' :
  rtc (token_step DEBUG) s s' →
  dataView_ s'.1 = dataView_ s.1
  ∧ same_view s.2 s'.2
  ∧ offset s.2 ≤ offset s'.2.
Proof.
  induction 1 as [s|s1 s2 s3 Hstep _ (IHd & IHv & IHo)].
  { repeat split; done. }
  apply token_step_inv in Hstep as (Hd & Hv & Ho & _).
  split_and!; [congruence | by eapply same_view_trans | lia].
Qed.

Lemma scan_reserved DEBUG s binEd operands b :
  rtc operand_step s (binEd, operands) →
  length operands ≤ 48 →
  next_byte binEd = Some b →
  reserved (byte_value b) = true →
  ∀ fuel, 49 - length s.2 ≤ fuel →
    fst (readOperandsOperator_loop DEBUG fuel s.1 s.2)
    = Throw (ReservedOperandByte (byte_value b)).
Proof.
  intros Hsteps Hlen Hb Hres.
  remember (binEd, operands) as s' eqn:Hs'.
  induction Hsteps as [s|s1 s2 s3 Hstep _ IH]; intros fuel Hfuel.
  - subst s. simpl in *. destruct fuel as [|fuel]; [lia|].
    by apply loop_reserved.
  - specialize (IH Hs').
    assert (length s1.2 ≤ 48 ∧ length s2.2 = S (length s1.2)) as [Hl1 Hl2].
    { destruct Hstep. simpl. rewrite length_app. simpl. lia. }
    destruct fuel as [|fuel]; [lia|].
    rewrite (loop_operand DEBUG fuel _ _ Hstep). apply IH. lia.
Qed.

Lemma decode_throws DEBUG inherited_text s s' e :
  rtc (token_step DEBUG) s s' →
  offset s'.2 < length (dataView_ s'.1) →
  fst (readOperandsOperator_ DEBUG s'.2) = Throw e →
  ∀ fuel, length (dataView_ s.1) - offset s.2 ≤ fuel →
    fst (init_loop DEBUG inherited_text fuel s.1 s.2) = Throw e.
Proof.
  intros Hsteps Hoff Hscan.
  induction Hsteps as [s|s1 s2 s3 Hstep _ IH]; intros fuel Hfuel.
  - destruct fuel as [|fuel]; [lia|].
    rewrite init_loop_body by done. by rewrite Hscan.
  - specialize (IH Hoff Hscan).
    pose proof (token_step_inv _ _ _ Hstep) as (Hd & _ & Ho & _).
    assert (offset s1.2 < length (dataView_ s1.1)) by (by destruct Hstep).
    destruct fuel as [|fuel]; [lia|].
    rewrite (token_step_init_loop DEBUG inherited_text fuel _ _ Hstep).
    apply IH. rewrite Hd. lia.
Qed.

(** C1: wherever the decoder expects a leading byte -- after any number of
    complete operator tokens and any number (at most 48) of operands of the
    current token -- and finds one of 22..27, 31, 255 there, [loadDict]
    throws the reserved-operand error for that byte: the call ends in the
    exception, so no Dict, complete or partial, reaches the caller. *)
Theorem C1_reserved_leading_byte_aborts_decode
    (DEBUG : bool) (inherited_text : string → string)
    (name : string) (buffer : list byte) (offset length : nat)
    (opt_dictOperators : option (gmap string string))
    (dataView : list byte) (this : CffDict.t)
    (binEd0 binEd : BinaryFontEditor.t) (operands : list Operand) (b0 : byte) :
  new_DataView buffer offset length = Ret dataView →
  rtc (token_step DEBUG)
      (before_init DEBUG name dataView opt_dictOperators,
       BinaryFontEditor.make dataView 0 0)
      (this, binEd0) →
  rtc operand_step (binEd0, []) (binEd, operands) →
  List.length operands ≤ 48 →
  next_byte binEd = Some b0 →
  byte_value b0 ∈ [22; 23; 24; 25; 26; 27; 31; 255]%Z →
  fst (loadDict DEBUG inherited_text name buffer offset length
                opt_dictOperators)
  = Throw (ReservedOperandByte (byte_value b0))
  ∧ ∀ dict, fst (loadDict DEBUG inherited_text name buffer offset length
                          opt_dictOperators) ≠ Ret dict.
Proof.
  intros Hview Htokens Hoperands Hlen Hb Hres%reserved_spec.
  cut (fst (loadDict DEBUG inherited_text name buffer offset length
                     opt_dictOperators)
       = Throw (ReservedOperandByte (byte_value b0))).
  { intros ->. by split. }
  rewrite loadDict_unfold, Hview. simpl. unfold init_.
  pose proof (token_steps_inv _ _ _ Htokens) as (Hd & [Hv1 Hb1] & Ho1).
  pose proof (operand_steps_inv _ _ Hoperands) as ([Hv2 Hb2] & Ho2).
  simpl in *.
  assert (BinaryFontEditor.offset binEd < List.length dataView) as Hin.
  { apply lookup_lt_Some in Hb. rewrite Hv2, Hv1, Hb2, Hb1 in Hb.
    simpl in Hb. lia. }
  assert (dataView_ (before_init DEBUG name dataView opt_dictOperators)
          = dataView) as Hdv.
  { unfold before_init. by destruct DEBUG. }
  rewrite Hdv in *.
  apply (decode_throws DEBUG inherited_text _ _ _ Htokens); simpl.
  - rewrite Hd. lia.
  - apply (scan_reserved DEBUG _ _ _ _ Hoperands Hlen Hb Hres). simpl. lia.
  - rewrite Hdv. lia.
Qed.

Lemma C1_witness :
  fst (loadDict true no_text "Top" [x8b; x05; x8c; x16] 0 4 None)
  = Throw (ReservedOperandByte 22)
  ∧ ∀ dict,
      fst (loadDict true no_text "Top" [x8b; x05; x8c; x16] 0 4 None)
      ≠ Ret dict.
Proof.
  apply (C1_reserved_leading_byte_aborts_decode true no_text "Top"
           [x8b; x05; x8c; x16] 0 4 None [x8b; x05; x8c; x16]
           (dict_set
              (CffDict.make "Top" [x8b; x05; x8c; x16] (Some ["5"]) ∅ None)
              "5" [Int 0])
           (BinaryFontEditor.make [x8b; x05; x8c; x16] 0 2)
           (BinaryFontEditor.make [x8b; x05; x8c; x16] 0 3)
           [Int 1] x16).
  - reflexivity.
  - eapply rtc_l; [|apply rtc_refl].
    apply (token_step_intro true
             (before_init true "Top" [x8b; x05; x8c; x16] None)
             (BinaryFontEditor.make [x8b; x05; x8c; x16] 0 0)
             (new_keyValuePair_ "5" [Int 0])
             (BinaryFontEditor.make [x8b; x05; x8c; x16] 0 2)
             (CffDict.make "Top" [x8b; x05; x8c; x16] (Some ["5"]) ∅ None)).
    + simpl. lia.
    + reflexivity.
    + reflexivity.
  - eapply rtc_l; [|apply rtc_refl].
    apply (operand_step_intro
             (BinaryFontEditor.make [x8b; x05; x8c; x16] 0 2) []
             140 (BinaryFontEditor.make [x8b; x05; x8c; x16] 0 3) (Int 1)).
    + simpl. lia.
    + reflexivity.
    + reflexivity.
    + reflexivity.
  - simpl. lia.
  - reflexivity.
  - apply reserved_spec. reflexivity.
Defined.

(* ===================================================================== *)
(** ** The integer encodings                                              *)
(* ===================================================================== *)


Lemma ToInt32_range z : (- 2 ^ 31 ≤ JS.ToInt32 z ≤ 2 ^ 31 - 1)%Z.
Proof.
  unfold JS.ToInt32.
  pose proof (Z.mod_pos_bound (z + 2 ^ 31) (2 ^ 32)) as H. lia.
Qed.

















(* ===================================================================== *)
(** ** The nibble decoder                                                 *)
(* ===================================================================== *)

(** The two nibbles of a byte. *)
Lemma nibbles_of_byte b :
  JS.sar (byte_value b) 4 = (byte_value b `div` 16)%Z
  ∧ JS.band (byte_value b) 15 = (byte_value b `mod` 16)%Z.
Proof. by destruct b. Qed.

Lemma parseNibbles_loop_unfold fuel binEd operand operandsCnt :
  parseNibbles_loop (S fuel) binEd operand operandsCnt
  = if (operandsCnt <=? 48)%nat then
      match getUint8 binEd with
      | Ret (aByte, binEd) =>
          match parseNibble (JS.sar aByte 4) operand with
          | Return operand => Ret (operand, binEd)
          | Next operand =>
              match parseNibble (JS.band aByte 15) operand with
              | Return operand => Ret (operand, binEd)
              | Next operand =>
                  parseNibbles_loop fuel binEd operand (S operandsCnt)
              end
          end
      | Throw e => Throw e
      | OutOfFuel => OutOfFuel
      end
    else Ret (operand, binEd).
Proof. done. Qed.

(** C4: the nibble 0xf ends the real number at once.  The high nibble of a
    byte is looked at first: when it is 0xf the text so far is returned
    whatever the low nibble is; when only the low nibble is 0xf the text
    returned includes what the high nibble added.  In both cases the byte
    itself has been consumed and no further byte is read.  The bytes
    0x1a 0x2f decode to "1.2". *)
Theorem C4_nibble_terminator
    (fuel : nat) (binEd : BinaryFontEditor.t) (operand : string)
    (operandsCnt : nat) (aByte : byte) :
  operandsCnt ≤ 48 →
  next_byte binEd = Some aByte →
  let high := JS.sar (byte_value aByte) 4 in
  let low := JS.band (byte_value aByte) 15 in
  parseNibble 15 operand = Return operand
  ∧ (high = 15%Z →
     parseNibbles_loop (S fuel) binEd operand operandsCnt
     = Ret (operand, skip 1 binEd))
  ∧ (∀ operand', parseNibble high operand = Next operand' → low = 15%Z →
     parseNibbles_loop (S fuel) binEd operand operandsCnt
     = Ret (operand', skip 1 binEd))
  ∧ parseNibbles_ (BinaryFontEditor.make [x1a; x2f] 0 0)
    = Ret ("1.2", BinaryFontEditor.make [x1a; x2f] 0 2)
  ∧ readOperand 30 (BinaryFontEditor.make [x1e; x1a; x2f] 0 1)
    = Ret (Some (Real "1.2"), BinaryFontEditor.make [x1e; x1a; x2f] 0 3).
Proof.
  intros Hcnt%Nat.leb_le Hb high low.
  split_and!.
  - done.
  - intros Hhigh. rewrite parseNibbles_loop_unfold, Hcnt.
    rewrite (getUint8_next _ _ Hb). fold high. by rewrite Hhigh.
  - intros operand' Hnext Hlow. rewrite parseNibbles_loop_unfold, Hcnt.
    rewrite (getUint8_next _ _ Hb). fold high low. by rewrite Hnext, Hlow.
  - by vm_compute.
  - by vm_compute.
Qed.

Lemma C4_witness :
  let binEd := BinaryFontEditor.make [x1a; xf7] 0 1 in
  let high := JS.sar (byte_value xf7) 4 in
  let low := JS.band (byte_value xf7) 15 in
  parseNibble 15 "1." = Return "1."
  ∧ (high = 15%Z →
     parseNibbles_loop 48 binEd "1." 1 = Ret ("1.", skip 1 binEd))
  ∧ (∀ operand', parseNibble high "1." = Next operand' → low = 15%Z →
     parseNibbles_loop 48 binEd "1." 1 = Ret (operand', skip 1 binEd))
  ∧ parseNibbles_ (BinaryFontEditor.make [x1a; x2f] 0 0)
    = Ret ("1.2", BinaryFontEditor.make [x1a; x2f] 0 2)
  ∧ readOperand 30 (BinaryFontEditor.make [x1e; x1a; x2f] 0 1)
    = Ret (Some (Real "1.2"), BinaryFontEditor.make [x1e; x1a; x2f] 0 3).
Proof.
  apply (C4_nibble_terminator 47 (BinaryFontEditor.make [x1a; xf7] 0 1)
           "1." 1 xf7).
  - lia.
  - reflexivity.
Defined.

(* ===================================================================== *)
(** ** The bound on the operands of one scan                              *)
(* ===================================================================== *)

(** A scan that returns has run some operand iterations and then either
    stopped at the bound or read an operator. *)
Lemma loop_Ret_run DEBUG fuel binEd operands keyValuePair binEd' log :
  readOperandsOperator_loop DEBUG fuel binEd operands
  = (Ret (keyValuePair, binEd'), log) →
  ∃ binEd1,
    rtc operand_step (binEd, operands) (binEd1, value keyValuePair)
    ∧ ((48 < length (value keyValuePair)
        ∧ key keyValuePair = EmptyString ∧ binEd' = binEd1)
       ∨ (length (value keyValuePair) ≤ 48
          ∧ ∃ b0 binEd2,
              getUint8 binEd1 = Ret (b0, binEd2)
              ∧ reserved b0 = false
              ∧ readOperand b0 binEd2 = Ret (None, binEd2)
              ∧ readOperator b0 binEd2 = Ret (key keyValuePair, binEd'))).
Proof.
  revert binEd operands.
  induction fuel as [|fuel IH]; intros binEd operands.
  - simpl. destruct (length operands <=? 48) eqn:Hle; [done|].
    apply Nat.leb_gt in Hle. intros [= <- <- <-]. simpl.
    exists binEd. split; [done|]. left. done.
  - destruct (decide (length operands ≤ 48)) as [Hle|Hgt].
    2:{ rewrite loop_exit by lia. intros [= <- <- <-]. simpl.
        exists binEd. split; [done|]. left. split; [lia | done]. }
    rewrite loop_body by done.
    destruct (getUint8 binEd) as [[b0 binEd1]| |] eqn:Hread; [|done|done].
    destruct (reserved b0) eqn:Hres; [done|].
    destruct (readOperand b0 binEd1) as [[[operand|] binEd2]| |] eqn:Hop;
      try done.
    + intros (binEd3 & Hrun & Hend)%IH.
      exists binEd3. split; [|done].
      eapply rtc_l; [|exact Hrun]. by eapply operand_step_intro.
    + pose proof (readOperand_None _ _ _ Hop) as ->.
      destruct (readOperator b0 binEd1) as [[operator binEd3]| |] eqn:Hor;
        try done.
      intros [= <- <- <-]. simpl.
      exists binEd. split; [done|]. right. split; [done|].
      by exists b0, binEd1.
Qed.

(** Operand iterations that reach the bound make the scan return there. *)
Lemma scan_run_exit DEBUG s binEd' operands :
  rtc operand_step s (binEd', operands) →
  48 < length operands →
  ∀ fuel, 49 - length s.2 ≤ fuel →
    readOperandsOperator_loop DEBUG fuel s.1 s.2
    = (Ret (new_keyValuePair_ EmptyString operands, binEd'), []).
Proof.
  intros Hsteps Hlen.
  remember (binEd', operands) as s' eqn:Hs'.
  induction Hsteps as [s|s1 s2 s3 Hstep _ IH]; intros fuel Hfuel.
  - subst s. cbn [fst snd]. by apply loop_exit.
  - specialize (IH Hs').
    assert (length s1.2 ≤ 48 ∧ length s2.2 = S (length s1.2)) as [Hl1 Hl2].
    { destruct Hstep. simpl. rewrite length_app. simpl. lia. }
    destruct fuel as [|fuel]; [lia|].
    rewrite (loop_operand DEBUG fuel _ _ Hstep). apply IH. lia.
Qed.

(** C3, as amended: a scan collects at most 49 operands.  When it returns
    49 operands the operator token is the empty string and the run of the
    scan is made of operand iterations only, up to the cursor it returns:
    the byte after the 49th operand has not been read.  In general the loop
    entered with 49 operands or more returns at once, cursor unchanged. *)
Theorem C3_operand_bound
    (DEBUG : bool) (binEd : BinaryFontEditor.t)
    (keyValuePair : keyValuePair_) (binEd' : BinaryFontEditor.t)
    (log : list string) :
  readOperandsOperator_ DEBUG binEd = (Ret (keyValuePair, binEd'), log) →
  length (value keyValuePair) ≤ 49
  ∧ (length (value keyValuePair) = 49 →
     key keyValuePair = EmptyString
     ∧ rtc operand_step (binEd, []) (binEd', value keyValuePair))
  ∧ (length (value keyValuePair) ≤ 48 → key keyValuePair ≠ EmptyString)
  ∧ (∀ fuel cursor operands, 49 ≤ length operands →
     readOperandsOperator_loop DEBUG fuel cursor operands
     = (Ret (new_keyValuePair_ EmptyString operands, cursor), [])).
Proof.
  intros Hscan.
  pose proof (readOperandsOperator_Ret _ _ _ _ _ Hscan)
    as (_ & _ & _ & Hmax & Hkey & _).
  apply loop_Ret_run in Hscan as (binEd1 & Hrun & Hend).
  split_and!.
  - done.
  - intros H49. split; [by apply Hkey|].
    destruct Hend as [(_ & _ & ->)|[? _]]; [done | lia].
  - intros H48 Hempty%Hkey. lia.
  - intros fuel cursor operands Hlen. apply loop_exit. lia.
Qed.

Lemma C3_witness :
  let binEd := BinaryFontEditor.make (replicate 49 x8b ++ [x05]) 0 0 in
  let binEd' := BinaryFontEditor.make (replicate 49 x8b ++ [x05]) 0 49 in
  let keyValuePair := new_keyValuePair_ EmptyString (replicate 49 (Int 0)) in
  length (value keyValuePair) ≤ 49
  ∧ (length (value keyValuePair) = 49 →
     key keyValuePair = EmptyString
     ∧ rtc operand_step (binEd, []) (binEd', value keyValuePair))
  ∧ (length (value keyValuePair) ≤ 48 → key keyValuePair ≠ EmptyString)
  ∧ (∀ fuel cursor operands, 49 ≤ length operands →
     readOperandsOperator_loop true fuel cursor operands
     = (Ret (new_keyValuePair_ EmptyString operands, cursor), [])).
Proof.
  apply (C3_operand_bound true
           (BinaryFontEditor.make (replicate 49 x8b ++ [x05]) 0 0)
           (new_keyValuePair_ EmptyString (replicate 49 (Int 0)))
           (BinaryFontEditor.make (replicate 49 x8b ++ [x05]) 0 49) []).
  vm_compute. reflexivity.
Defined.

(** C3 as the specification words it fails: with 49 operands collected
    the scanner does not read the next byte as the operator.  On 49 bytes
    0x8b followed by the operator byte 5 the scan returns the empty token
    and leaves the cursor on the byte 5. *)
Lemma C3_counterexample :
  ¬ (∀ (fuel : nat) (binEd : BinaryFontEditor.t) (operands : list Operand)
       (b : byte),
       length operands = 49 →
       next_byte binEd = Some b →
       (byte_value b < 12)%Z →
       fst (readOperandsOperator_loop true (S fuel) binEd operands)
       = Ret (new_keyValuePair_ (JS.toString (byte_value b)) operands,
              skip 1 binEd))
  ∧ fst (readOperandsOperator_
           true (BinaryFontEditor.make (replicate 49 x8b ++ [x05]) 0 0))
    = Ret (new_keyValuePair_ EmptyString (replicate 49 (Int 0)),
           BinaryFontEditor.make (replicate 49 x8b ++ [x05]) 0 49).
Proof.
  split; [|by vm_compute].
  intros Hclaim.
  specialize (Hclaim 0 (BinaryFontEditor.make (replicate 49 x8b ++ [x05]) 0 49)
                (replicate 49 (Int 0)) x05).
  vm_compute in Hclaim.
  specialize (Hclaim eq_refl eq_refl eq_refl). discriminate Hclaim.
Qed.

Ltac one_operand_step :=
  eapply rtc_l;
  [ eapply operand_step_intro;
    [ simpl; lia | reflexivity | reflexivity | reflexivity ] | ].

(** C10: a scan whose run is 49 operand iterations returns the empty
    string as operator token, with the cursor where the 49th operand
    ended, whatever goog.DEBUG is.  What [init_] does with that token
    depends on the key list.  When the key list exists, [init_] appends
    the empty string to it, stores the 49 operands under the empty string
    and goes on with the loop: nothing is thrown for the missing operator.
    When it does not exist -- the constructor creates it only under
    goog.DEBUG, lines 51-54 -- the push of line 89 throws a TypeError: the
    loop ends there and no step of it records anything.  So a region of 49
    one-byte operands loads into a Dict whose only key is the empty string
    with goog.DEBUG on, and the same call throws with goog.DEBUG off. *)
Theorem C10_empty_operator_token_and_the_key_list
    (DEBUG : bool) (inherited_text : string → string) (fuel : nat)
    (this : CffDict.t)
    (binEd binEd' : BinaryFontEditor.t) (operands : list Operand) :
  rtc operand_step (binEd, []) (binEd', operands) →
  length operands = 49 →
  offset binEd < length (dataView_ this) →
  readOperandsOperator_ DEBUG binEd
  = (Ret (new_keyValuePair_ EmptyString operands, binEd'), [])
  ∧ match keys_ this with
    | Some keys =>
        let this' :=
          CffDict.make (name_ this) (dataView_ this)
                       (Some (keys ++ [EmptyString]))
                       (<[EmptyString := operands]> (dict_ this))
                       (dictOperators_ this) in
        token_step DEBUG (this, binEd) (this', binEd')
        ∧ fst (init_loop DEBUG inherited_text (S fuel) this binEd)
          = fst (init_loop DEBUG inherited_text fuel this' binEd')
        ∧ getKeys this' = Some (keys ++ [EmptyString])
        ∧ snd (get this' EmptyString) = Ret (Own operands)
    | None =>
        fst (init_loop DEBUG inherited_text (S fuel) this binEd)
        = Throw TypeError_push_of_undefined
        ∧ ∀ s', ¬ token_step DEBUG (this, binEd) s'
    end
  ∧ fst (loadDict true inherited_text "Top" (replicate 49 x8b) 0 49 None)
    = Ret (CffDict.make "Top" (replicate 49 x8b) (Some [EmptyString])
             {[ EmptyString := replicate 49 (Int 0) ]} None)
  ∧ fst (loadDict false inherited_text "Top" (replicate 49 x8b) 0 49 None)
    = Throw TypeError_push_of_undefined.
Proof.
  intros Hrun Hlen Hoff.
  assert (readOperandsOperator_ DEBUG binEd
          = (Ret (new_keyValuePair_ EmptyString operands, binEd'), []))
    as Hscan.
  { apply (scan_run_exit DEBUG _ _ _ Hrun); simpl; lia. }
  split; [done|]. split; [|split; by vm_compute].
  destruct (keys_ this) as [keys|] eqn:Hkeys.
  - intros this'.
    assert (token_step DEBUG (this, binEd) (this', binEd')) as Hstep.
    { apply (token_step_intro DEBUG this binEd
               (new_keyValuePair_ EmptyString operands) binEd'
               (CffDict.make (name_ this) (dataView_ this)
                             (Some (keys ++ [EmptyString]))
                             (dict_ this) (dictOperators_ this))).
      - done.
      - by rewrite Hscan.
      - unfold keys_push. by rewrite Hkeys. }
    split_and!.
    + done.
    + apply (token_step_init_loop DEBUG inherited_text fuel _ _ Hstep).
    + done.
    + unfold get, JS.has_property, JS.get_property. simpl.
      rewrite lookup_insert_eq.
      by rewrite bool_decide_eq_true_2 by (by eexists).
  - split.
    + rewrite init_loop_body by done. rewrite Hscan.
      cbn [fst mbind outcome_bind]. unfold keys_push. by rewrite Hkeys.
    + intros s' Hstep. inversion Hstep as [? ? ? ? ? _ _ Hpush]; subst.
      unfold keys_push in Hpush. by rewrite Hkeys in Hpush.
Qed.

Lemma C10_witness :
  let data := replicate 49 x8b in
  let this := before_init false "Top" data None in
  let binEd := BinaryFontEditor.make data 0 0 in
  let binEd' := BinaryFontEditor.make data 0 49 in
  let operands := replicate 49 (Int 0) in
  readOperandsOperator_ false binEd
  = (Ret (new_keyValuePair_ EmptyString operands, binEd'), [])
  ∧ (fst (init_loop false no_text 49 this binEd)
     = Throw TypeError_push_of_undefined
     ∧ ∀ s', ¬ token_step false (this, binEd) s')
  ∧ fst (loadDict true no_text "Top" (replicate 49 x8b) 0 49 None)
    = Ret (CffDict.make "Top" (replicate 49 x8b) (Some [EmptyString])
             {[ EmptyString := replicate 49 (Int 0) ]} None)
  ∧ fst (loadDict false no_text "Top" (replicate 49 x8b) 0 49 None)
    = Throw TypeError_push_of_undefined.
Proof.
  apply (C10_empty_operator_token_and_the_key_list false no_text 48
           (before_init false "Top" (replicate 49 x8b) None)
           (BinaryFontEditor.make (replicate 49 x8b) 0 0)
           (BinaryFontEditor.make (replicate 49 x8b) 0 49)
           (replicate 49 (Int 0))).
  - do 49 one_operand_step. apply rtc_refl.
  - reflexivity.
  - simpl. lia.
Defined.

(* ===================================================================== *)
(** ** The Dict against the sequence of scans                             *)
(* ===================================================================== *)

Lemma last_value_snoc token keyValuePairs keyValuePair :
  last_value token (keyValuePairs ++ [keyValuePair])
  = if decide (key keyValuePair = token)
    then Some (value keyValuePair)
    else last_value token keyValuePairs.
Proof.
  unfold last_value. rewrite rev_app_distr. simpl.
  case_bool_decide; by case_decide.
Qed.

Lemma last_value_cons_later token keyValuePair later :
  (∀ kv, kv ∈ later → key kv ≠ token) →
  ∀ before,
    last_value token (before ++ keyValuePair :: later)
    = last_value token (before ++ [keyValuePair]).
Proof.
  induction later as [|kv later IH] using rev_ind; intros Hlater before.
  { done. }
  replace (before ++ keyValuePair :: later ++ [kv])
    with ((before ++ keyValuePair :: later) ++ [kv])
    by (by rewrite <- app_assoc).
  rewrite last_value_snoc. case_decide as Hkv.
  - exfalso. apply (Hlater kv); [|done].
    apply elem_of_app. right. by apply list_elem_of_singleton.
  - apply IH. intros kv' Hin. apply Hlater. apply elem_of_app. by left.
Qed.

Lemma lookup_foldl_insert token keyValuePairs
    (dict : gmap string (list Operand)) :
  foldl (λ m kv, <[key kv := value kv]> m) dict keyValuePairs !! token
  = match last_value token keyValuePairs with
    | Some operands => Some operands
    | None => dict !! token
    end.
Proof.
  induction keyValuePairs as [|kv kvs IH] using rev_ind; [done|].
  rewrite foldl_app, last_value_snoc. simpl. case_decide as Hkv.
  - subst token. by rewrite lookup_insert_eq.
  - rewrite lookup_insert_ne by done. apply IH.
Qed.

Lemma last_value_Some_elem token keyValuePairs operands :
  last_value token keyValuePairs = Some operands →
  token ∈ key <$> keyValuePairs.
Proof.
  induction keyValuePairs as [|kv kvs IH] using rev_ind; [done|].
  rewrite last_value_snoc, fmap_app. case_decide as Hkv.
  - intros _. subst token. apply elem_of_app. right.
    by apply list_elem_of_singleton.
  - intros Hin%IH. apply elem_of_app. by left.
Qed.

Section Tokens.

Variable DEBUG : bool.
Variable inherited_text : string → string.

Lemma scanAll_exit fuel byteLength binEd :
  byteLength ≤ offset binEd → scanAll DEBUG fuel byteLength binEd = Ret [].
Proof.
  intros Hoff. destruct fuel; simpl;
    destruct (offset binEd <? byteLength) eqn:Hlt; try done;
    apply Nat.ltb_lt in Hlt; lia.
Qed.

Lemma scanAll_body fuel byteLength binEd :
  offset binEd < byteLength →
  scanAll DEBUG (S fuel) byteLength binEd
  = '(keyValuePair, binEd) ← fst (readOperandsOperator_ DEBUG binEd);
    keyValuePairs ← scanAll DEBUG fuel byteLength binEd;
    Ret (keyValuePair :: keyValuePairs).
Proof.
  intros Hoff%Nat.ltb_lt.
  change (scanAll DEBUG (S fuel) byteLength binEd)
    with (if (offset binEd <? byteLength)%nat then
            '(keyValuePair, binEd) ← fst (readOperandsOperator_ DEBUG binEd);
            keyValuePairs ← scanAll DEBUG fuel byteLength binEd;
            Ret (keyValuePair :: keyValuePairs)
          else Ret []).
  by rewrite Hoff.
Qed.

(** What [init_] leaves in the object, in terms of the scans. *)
Lemma init_loop_scanAll fuel this binEd dict :
  fst (init_loop DEBUG inherited_text fuel this binEd) = Ret dict →
  ∃ keyValuePairs,
    scanAll DEBUG fuel (length (dataView_ this)) binEd = Ret keyValuePairs
    ∧ keys_ dict = (λ keys, keys ++ (key <$> keyValuePairs)) <$> keys_ this
    ∧ (keys_ this = None → keyValuePairs = [])
    ∧ dict_ dict
      = foldl (λ m kv, <[key kv := value kv]> m) (dict_ this) keyValuePairs
    ∧ name_ dict = name_ this
    ∧ dataView_ dict = dataView_ this
    ∧ dictOperators_ dict = dictOperators_ this.
Proof.
  revert this binEd.
  induction fuel as [|fuel IH]; intros this binEd.
  - destruct (decide (offset binEd < length (dataView_ this))) as [Hlt|Hge].
    { simpl. apply Nat.ltb_lt in Hlt. by rewrite Hlt. }
    rewrite init_loop_exit, scanAll_exit by lia. intros [= <-].
    exists []. split_and!; try done.
    destruct (keys_ this); simpl; by rewrite ?app_nil_r.
  - destruct (decide (offset binEd < length (dataView_ this))) as [Hlt|Hge].
    2:{ rewrite init_loop_exit, scanAll_exit by lia. intros [= <-].
        exists []. split_and!; try done.
        destruct (keys_ this); simpl; by rewrite ?app_nil_r. }
    rewrite init_loop_body, scanAll_body by done.
    destruct (fst (readOperandsOperator_ DEBUG binEd))
      as [[keyValuePair binEd']| |]; try done.
    cbn [mbind outcome_bind].
    destruct (keys_push this (key keyValuePair)) as [[this'| |] l] eqn:Hpush;
      try done.
    apply keys_push_Ret in Hpush as (keys & Hkeys & _ & ->).
    cbn [fst mbind outcome_bind].
    intros (kvs & Hscan & Hk & _ & Hd & Hn & Hv & Ho)%IH.
    simpl in Hscan, Hk, Hd, Hn, Hv, Ho. rewrite Hscan.
    exists (keyValuePair :: kvs). rewrite Hkeys. simpl.
    split_and!; try done.
    by rewrite Hk, <- app_assoc.
Qed.

End Tokens.

(** C5: a Dict that [loadDict] returns holds, for the key/value pairs the
    scans of the region produced in order: as key list the keys of all the
    pairs in that order, a repeated token as often as it was produced; as
    mapping, for each token, the operands of the last pair with that token,
    and that is what [get] returns; and every token of the mapping is in
    the key list. *)
Theorem C5_keys_in_order_last_value_wins
    (DEBUG : bool) (inherited_text : string → string)
    (name : string) (buffer : list byte) (offset length : nat)
    (opt_dictOperators : option (gmap string string)) (dict : CffDict.t) :
  fst (loadDict DEBUG inherited_text name buffer offset length
                opt_dictOperators) = Ret dict →
  ∃ dataView keyValuePairs,
    new_DataView buffer offset length = Ret dataView
    ∧ scanAll DEBUG (List.length dataView) (List.length dataView)
              (BinaryFontEditor.make dataView 0 0) = Ret keyValuePairs
    ∧ getKeys dict = (if DEBUG then Some (key <$> keyValuePairs) else None)
    ∧ (∀ token, dict_ dict !! token = last_value token keyValuePairs)
    ∧ (∀ before keyValuePair later,
         keyValuePairs = before ++ keyValuePair :: later →
         (∀ kv, kv ∈ later → key kv ≠ key keyValuePair) →
         snd (get dict (key keyValuePair)) = Ret (Own (value keyValuePair)))
    ∧ (∀ token, is_Some (dict_ dict !! token) →
         ∃ keys, getKeys dict = Some keys ∧ token ∈ keys).
Proof.
  rewrite loadDict_unfold.
  destruct (new_DataView buffer offset length) as [dataView| |] eqn:Hview;
    try done.
  cbn [mbind outcome_bind]. unfold init_.
  assert (dataView_ (before_init DEBUG name dataView opt_dictOperators)
          = dataView
          ∧ dict_ (before_init DEBUG name dataView opt_dictOperators) = ∅
          ∧ keys_ (before_init DEBUG name dataView opt_dictOperators)
            = (if DEBUG then Some [] else None))
    as (Hdv & Hdict & Hkeys) by (unfold before_init; by destruct DEBUG).
  rewrite Hdv.
  intros (kvs & Hscan & Hk & Hnone & Hd & _)%init_loop_scanAll.
  rewrite Hdv in Hscan. rewrite Hkeys in Hk, Hnone. rewrite Hdict in Hd.
  assert (∀ token, dict_ dict !! token = last_value token kvs) as Hlookup.
  { intros token. rewrite Hd, lookup_foldl_insert.
    destruct (last_value token kvs); [done | apply lookup_empty]. }
  assert (getKeys dict = (if DEBUG then Some (key <$> kvs) else None))
    as Hget.
  { unfold getKeys. rewrite Hk. by destruct DEBUG. }
  exists dataView, kvs. split_and!; try done.
  - intros before kv later -> Hlater.
    unfold get, JS.has_property, JS.get_property.
    rewrite Hlookup, last_value_cons_later, last_value_snoc by done.
    rewrite decide_True by done. done.
  - intros token [operands Hsome]. rewrite Hlookup in Hsome.
    destruct DEBUG.
    + exists (key <$> kvs). split; [done|].
      by eapply last_value_Some_elem.
    + rewrite Hnone in Hsome by done. done.
Qed.

Lemma C5_witness :
  ∃ dataView keyValuePairs,
    new_DataView [x8b; x05; x0c; x07; x8c; x05] 0 6 = Ret dataView
    ∧ scanAll true (List.length dataView) (List.length dataView)
              (BinaryFontEditor.make dataView 0 0) = Ret keyValuePairs
    ∧ getKeys (CffDict.make "Top" [x8b; x05; x0c; x07; x8c; x05]
                 (Some ["5"; "12 7"; "5"])
                 (<["5" := [Int 1]]> (<["12 7" := []]> {[ "5" := [Int 0] ]}))
                 None)
      = (if true then Some (key <$> keyValuePairs) else None)
    ∧ (∀ token,
         dict_ (CffDict.make "Top" [x8b; x05; x0c; x07; x8c; x05]
                  (Some ["5"; "12 7"; "5"])
                  (<["5" := [Int 1]]> (<["12 7" := []]> {[ "5" := [Int 0] ]}))
                  None) !! token
         = last_value token keyValuePairs)
    ∧ (∀ before keyValuePair later,
         keyValuePairs = before ++ keyValuePair :: later →
         (∀ kv, kv ∈ later → key kv ≠ key keyValuePair) →
         snd (get (CffDict.make "Top" [x8b; x05; x0c; x07; x8c; x05]
                     (Some ["5"; "12 7"; "5"])
                     (<["5" := [Int 1]]>
                        (<["12 7" := []]> {[ "5" := [Int 0] ]}))
                     None)
                  (key keyValuePair))
         = Ret (Own (value keyValuePair)))
    ∧ (∀ token,
         is_Some (dict_ (CffDict.make "Top" [x8b; x05; x0c; x07; x8c; x05]
                           (Some ["5"; "12 7"; "5"])
                           (<["5" := [Int 1]]>
                              (<["12 7" := []]> {[ "5" := [Int 0] ]}))
                           None) !! token) →
         ∃ keys,
           getKeys (CffDict.make "Top" [x8b; x05; x0c; x07; x8c; x05]
                      (Some ["5"; "12 7"; "5"])
                      (<["5" := [Int 1]]>
                         (<["12 7" := []]> {[ "5" := [Int 0] ]}))
                      None) = Some keys
           ∧ token ∈ keys).
Proof.
  apply (C5_keys_in_order_last_value_wins true no_text "Top"
           [x8b; x05; x0c; x07; x8c; x05] 0 6 None).
  vm_compute. reflexivity.
Defined.

(* ===================================================================== *)
(** ** Lookups                                                            *)
(* ===================================================================== *)

(** A name inherited from Object.prototype is found by [get] in any Dict:
    the cases of [get] on operator tokens below do not extend to arbitrary
    strings. *)
Example get_inherited_name :
  snd (get (CffDict.make "Top" [] (Some []) ∅ None) "toString")
  = Ret (Inherited "toString").
Proof. done. Qed.

(** C7: on any Dict and any operator token, [get] throws the invalid-key
    error exactly when the token has no entry in the mapping, and otherwise
    returns the operands stored for it.  In both cases the Dict after the
    call is the Dict before it, so it answers later calls as before. *)
Theorem C7_get_fails_iff_absent (this : CffDict.t) (token : OperatorToken) :
  ((∃ message, snd (get this (token_string token))
               = Throw (InvalidKeyLookup message))
   ↔ dict_ this !! token_string token = None)
  ∧ (dict_ this !! token_string token = None →
     snd (get this (token_string token))
     = Throw (InvalidKeyLookup
                ("CFF " +:+ getName this +:+ " DICT: invalid key: "
                 +:+ token_string token)))
  ∧ (∀ operands, dict_ this !! token_string token = Some operands →
     snd (get this (token_string token)) = Ret (Own operands))
  ∧ fst (get this (token_string token)) = this.
Proof.
  pose proof (token_string_inherited token) as Hproto.
  unfold get, getName, JS.has_property, JS.get_property. rewrite Hproto.
  destruct (dict_ this !! token_string token) as [operands|] eqn:Hlookup.
  - rewrite bool_decide_eq_true_2 by (by eexists). simpl.
    split; [|split; [|split]]; try done.
    + split; [by intros [message ?] | done].
    + by intros operands' [= <-].
  - rewrite bool_decide_eq_false_2 by (by intros [? ?]). simpl.
    split; [|split; [|split]]; try done.
    split; [done | intros _; by eexists].
Qed.

Lemma C7_witness :
  let this := CffDict.make "Top" [x8b; x05] (Some ["5"])
                           {[ "5" := [Int 0] ]} None in
  ((∃ message, snd (get this (token_string (Escape x07)))
               = Throw (InvalidKeyLookup message))
   ↔ dict_ this !! token_string (Escape x07) = None)
  ∧ (dict_ this !! token_string (Escape x07) = None →
     snd (get this (token_string (Escape x07)))
     = Throw (InvalidKeyLookup
                ("CFF " +:+ getName this +:+ " DICT: invalid key: "
                 +:+ token_string (Escape x07))))
  ∧ (∀ operands, dict_ this !! token_string (Escape x07) = Some operands →
     snd (get this (token_string (Escape x07))) = Ret (Own operands))
  ∧ fst (get this (token_string (Escape x07))) = this.
Proof.
  exact (C7_get_fails_iff_absent
           (CffDict.make "Top" [x8b; x05] (Some ["5"])
                         {[ "5" := [Int 0] ]} None)
           (Escape x07)).
Defined.

(* ===================================================================== *)
(** ** The operator-name map                                              *)
(* ===================================================================== *)

Section OperatorNames.

Variable DEBUG : bool.
Variable inherited_text : string → string.

(** Two objects that differ at most in the operator-name map stay so
    through the loop of [init_], and end the same way. *)
Lemma init_loop_operator_names fuel this1 this2 binEd :
  setOperators this1 None = setOperators this2 None →
  (λ dict, setOperators dict None)
    <$> fst (init_loop DEBUG inherited_text fuel this1 binEd)
  = (λ dict, setOperators dict None)
    <$> fst (init_loop DEBUG inherited_text fuel this2 binEd).
Proof.
  revert this1 this2 binEd.
  induction fuel as [|fuel IH]; intros this1 this2 binEd Hsame.
  - injection Hsame as Hn Hv Hk Hd.
    destruct (decide (offset binEd < length (dataView_ this1))) as [Hlt|Hge].
    + simpl. rewrite <- Hv. apply Nat.ltb_lt in Hlt. by rewrite Hlt.
    + rewrite !init_loop_exit by (rewrite <- ?Hv; lia).
      simpl. unfold setOperators. by rewrite Hn, Hv, Hk, Hd.
  - pose proof Hsame as Hsame'. injection Hsame' as Hn Hv Hk Hd.
    destruct (decide (offset binEd < length (dataView_ this1))) as [Hlt|Hge].
    2:{ rewrite !init_loop_exit by (rewrite <- ?Hv; lia).
        simpl. unfold setOperators. by rewrite Hn, Hv, Hk, Hd. }
    rewrite !init_loop_body by (rewrite <- ?Hv; done).
    destruct (fst (readOperandsOperator_ DEBUG binEd))
      as [[keyValuePair binEd']| |]; try done.
    cbn [mbind outcome_bind]. unfold keys_push. rewrite <- Hk.
    destruct (keys_ this1) as [keys|]; [|done].
    cbn [fst mret logged_ret mbind outcome_bind].
    apply IH. unfold setOperators, dict_set. simpl.
    by rewrite Hn, Hv, Hd.
Qed.

End OperatorNames.

(** C8: with the same name, buffer, offset and length, [loadDict] ends the
    same way whatever operator-name map it is given, or none: it throws
    the same error, or it returns Dicts that are equal but for the private
    field holding the map -- same name, same key list, same mapping, same
    answers from [getName], [getKeys] and [get].  Only the lines written to
    the log can differ. *)
Theorem C8_operator_names_do_not_change_decoding
    (DEBUG : bool) (inherited_text : string → string)
    (name : string) (buffer : list byte) (offset length : nat)
    (dictOperators1 dictOperators2 : option (gmap string string)) :
  let result1 := fst (loadDict DEBUG inherited_text name buffer offset length
                               dictOperators1) in
  let result2 := fst (loadDict DEBUG inherited_text name buffer offset length
                               dictOperators2) in
  (λ dict, setOperators dict None) <$> result1
  = (λ dict, setOperators dict None) <$> result2
  ∧ (∀ e, result1 = Throw e ↔ result2 = Throw e)
  ∧ (∀ dict1, result1 = Ret dict1 →
     ∃ dict2, result2 = Ret dict2
              ∧ getName dict1 = getName dict2
              ∧ getKeys dict1 = getKeys dict2
              ∧ dict_ dict1 = dict_ dict2
              ∧ ∀ key, snd (get dict1 key) = snd (get dict2 key)).
Proof.
  intros result1 result2.
  assert ((λ dict, setOperators dict None) <$> result1
          = (λ dict, setOperators dict None) <$> result2) as Hsame.
  { unfold result1, result2. rewrite !loadDict_unfold.
    destruct (new_DataView buffer offset length) as [dataView| |]; try done.
    cbn [mbind outcome_bind]. unfold init_.
    assert (setOperators (before_init DEBUG name dataView dictOperators1) None
            = setOperators (before_init DEBUG name dataView dictOperators2)
                           None) as Hstart
      by (unfold before_init; by destruct DEBUG).
    pose proof Hstart as Hstart'. injection Hstart' as _ Hv _ _.
    rewrite <- Hv. by apply init_loop_operator_names. }
  split; [done|]. split.
  - intros e. destruct result1, result2; try done.
    injection Hsame as ->. done.
  - intros dict1 Hret. rewrite Hret in Hsame.
    destruct result2 as [dict2| |]; [|done|done].
    injection Hsame as Hn Hv Hk Hd.
    exists dict2. split_and!; try done.
    intros key. unfold get. rewrite Hn, Hd.
    by destruct (JS.has_property key (dict_ dict2)).
Qed.

Lemma C8_witness :
  let result1 := fst (loadDict true no_text "Top" [x8b; x05; x16] 0 2
                               (Some TOP_DICT_OPERATORS)) in
  let result2 := fst (loadDict true no_text "Top" [x8b; x05; x16] 0 2
                               None) in
  (λ dict, setOperators dict None) <$> result1
  = (λ dict, setOperators dict None) <$> result2
  ∧ (∀ e, result1 = Throw e ↔ result2 = Throw e)
  ∧ (∀ dict1, result1 = Ret dict1 →
     ∃ dict2, result2 = Ret dict2
              ∧ getName dict1 = getName dict2
              ∧ getKeys dict1 = getKeys dict2
              ∧ dict_ dict1 = dict_ dict2
              ∧ ∀ key, snd (get dict1 key) = snd (get dict2 key)).
Proof.
  exact (C8_operator_names_do_not_change_decoding true no_text "Top"
           [x8b; x05; x16] 0 2 (Some TOP_DICT_OPERATORS) None).
Defined.

(** The map does reach the log: with it the line of operator 5 carries the
    logical name, without it the token. *)
Example operator_names_in_the_log :
  snd (loadDict true no_text "Top" [x8b; x05] 0 2
                (Some TOP_DICT_OPERATORS))
  = ["  0 FontBBox"]
  ∧ snd (loadDict true no_text "Top" [x8b; x05] 0 2 None) = ["  0 5"].
Proof. by vm_compute. Qed.

(* ===================================================================== *)
(** ** The decoder on the examples of the specification                   *)
(* ===================================================================== *)

(** The two-byte integers 247 0, 250 255, 251 0, 254 255, the five-byte
    integer 29 0 0 0 16, then the escape operator 12 7 and the operator 5:
    section 8 of the specification gives 108, 1131, -108, -1131, 16 and the
    tokens "12 7" and "5". *)
Example decode_examples :
  fst (loadDict true no_text "Top"
         [xf7; x00; xfa; xff; xfb; x00; xfe; xff; x1d; x00; x00; x00; x10;
          x0c; x07; x05] 0 16 None)
  = Ret (CffDict.make "Top"
           [xf7; x00; xfa; xff; xfb; x00; xfe; xff; x1d; x00; x00; x00; x10;
            x0c; x07; x05]
           (Some ["12 7"; "5"])
           (<["5" := []]>
              {[ "12 7" := [Int 108; Int 1131; Int (-108); Int (-1131);
                            Int 16] ]})
           None).
Proof. by vm_compute. Qed.

(** A region that ends inside a token: the read past the end throws. *)
Example decode_out_of_range :
  fst (loadDict true no_text "Top" [x8b; x1c; x01] 0 3 None)
  = Throw OutOfRange.
Proof. by vm_compute. Qed.

(* ===================================================================== *)
(** ** The two-byte integers and the uniqueness of the short encodings    *)
(* ===================================================================== *)

Lemma byte_value_inj b b' : byte_value b = byte_value b' → b = b'.
Proof.
  unfold byte_value. intros H%(inj Z.of_N).
  pose proof (Byte.of_to_N b) as Hb. pose proof (Byte.of_to_N b') as Hb'.
  rewrite H in Hb. congruence.
Qed.

Lemma readOperand_247_250 b0 binEd b1 :
  (247 ≤ b0 ≤ 250)%Z → next_byte binEd = Some b1 →
  readOperand b0 binEd
  = Ret (Some (Int ((b0 - 247) * 256 + byte_value b1 + 108)), skip 1 binEd).
Proof.
  intros Hb0 Hb1.
  destruct (readOperand_cases b0 binEd)
    as [[? _]|[[_ ->]|[[? _]|[[? _]|[[? _]|[[? _]|[? _]]]]]]]; try lia.
  by rewrite (getUint8_next _ _ Hb1).
Qed.

Lemma readOperand_251_254 b0 binEd b1 :
  (251 ≤ b0 ≤ 254)%Z → next_byte binEd = Some b1 →
  readOperand b0 binEd
  = Ret (Some (Int (- (b0 - 251) * 256 - byte_value b1 - 108)),
         skip 1 binEd).
Proof.
  intros Hb0 Hb1.
  destruct (readOperand_cases b0 binEd)
    as [[? _]|[[? _]|[[_ ->]|[[? _]|[[? _]|[[? _]|[? _]]]]]]]; try lia.
  by rewrite (getUint8_next _ _ Hb1).
Qed.





(** X3: the one-byte and two-byte integer encodings never give the same
    value for different bytes: when two leading bytes in 32..254, each
    followed by a byte, decode to the same integer, the leading bytes are
    equal and, for a two-byte encoding, so are the second bytes.  The value
    lies in -1131..1131. *)
Theorem X3_short_integers_decode_uniquely
    (binEd binEd' binEd1 binEd1' : BinaryFontEditor.t)
    (b0 b1 b0' b1' : byte) (z : Z) :
  (32 ≤ byte_value b0 ≤ 254)%Z →
  (32 ≤ byte_value b0' ≤ 254)%Z →
  next_byte binEd = Some b1 →
  next_byte binEd' = Some b1' →
  readOperand (byte_value b0) binEd = Ret (Some (Int z), binEd1) →
  readOperand (byte_value b0') binEd' = Ret (Some (Int z), binEd1') →
  b0 = b0'
  ∧ ((247 ≤ byte_value b0)%Z → b1 = b1')
  ∧ (-1131 ≤ z ≤ 1131)%Z.
Proof.
  intros Hb0 Hb0' Hb1 Hb1' Hop Hop'.
  pose proof (byte_value_range b1). pose proof (byte_value_range b1').
  assert (∀ b e c (v : Z) e1,
            (32 ≤ byte_value b ≤ 254)%Z → next_byte e = Some c →
            readOperand (byte_value b) e = Ret (Some (Int v), e1) →
            ((byte_value b ≤ 246)%Z ∧ v = (byte_value b - 139)%Z)
            ∨ ((247 ≤ byte_value b ≤ 250)%Z
               ∧ v = ((byte_value b - 247) * 256 + byte_value c + 108)%Z)
            ∨ ((251 ≤ byte_value b)%Z
               ∧ v = (- (byte_value b - 251) * 256 - byte_value c - 108)%Z))
    as Hcases.
  { intros b e c v e1 Hb Hc Hr.
    destruct (decide (byte_value b ≤ 246)%Z).
    - left. split; [done|].
      destruct (readOperand_cases (byte_value b) e)
        as [[_ Heq]|[[? _]|[[? _]|[[? _]|[[? _]|[[? _]|[? _]]]]]]]; try lia.
      rewrite Heq in Hr. by injection Hr as <- _.
    - destruct (decide (byte_value b ≤ 250)%Z).
      + right; left. split; [lia|].
        rewrite (readOperand_247_250 _ _ c) in Hr by (done || lia).
        by injection Hr as <- _.
      + right; right. split; [lia|].
        rewrite (readOperand_251_254 _ _ c) in Hr by (done || lia).
        by injection Hr as <- _. }
  pose proof (Hcases _ _ _ _ _ Hb0 Hb1 Hop) as H1.
  pose proof (Hcases _ _ _ _ _ Hb0' Hb1' Hop') as H2.
  assert (byte_value b0 = byte_value b0'
          ∧ ((247 ≤ byte_value b0)%Z → byte_value b1 = byte_value b1')
          ∧ (-1131 ≤ z ≤ 1131)%Z) as (He0 & He1 & Hz) by lia.
  split; [by apply byte_value_inj|]. split; [|done].
  intros ?. apply byte_value_inj. by apply He1.
Qed.

Lemma X3_witness :
  xfa = xfa
  ∧ ((247 ≤ byte_value xfa)%Z → xff = xff)
  ∧ (-1131 ≤ 1131 ≤ 1131)%Z.
Proof.
  apply (X3_short_integers_decode_uniquely
           (BinaryFontEditor.make [xfa; xff] 0 1)
           (BinaryFontEditor.make [x00; xfa; xff] 0 2)
           (BinaryFontEditor.make [xfa; xff] 0 2)
           (BinaryFontEditor.make [x00; xfa; xff] 0 3)
           xfa xff xfa xff 1131).
  - vm_compute. split; discriminate.
  - vm_compute. split; discriminate.
  - reflexivity.
  - reflexivity.
  - reflexivity.
  - reflexivity.
Defined.

(* ===================================================================== *)
(** ** Operators and their keys                                           *)
(* ===================================================================== *)

Lemma readOperand_operator b0 binEd :
  (b0 ≤ 21)%Z → readOperand b0 binEd = Ret (None, binEd).
Proof.
  intros Hb0.
  destruct (readOperand_cases b0 binEd)
    as [[? _]|[[? _]|[[? _]|[[? _]|[[? _]|[[? _]|[_ ->]]]]]]]; try lia.
  done.
Qed.

Lemma readOperator_plain b0 binEd :
  b0 ≠ 12%Z → readOperator b0 binEd = Ret (JS.toString b0, binEd).
Proof.
  intros Hb0. unfold readOperator.
  by replace (b0 =? 12)%Z with false by lia.
Qed.

Lemma readOperator_escape binEd :
  readOperator 12 binEd
  = '(op, binEd) ← getUint8 binEd; Ret ("12 " +:+ JS.toString op, binEd).
Proof. done. Qed.

(** X4: a leading byte of 21 or less ends the scan.  Other than 12 it is
    the operator itself: the key is its decimal text and one byte is
    consumed.  The byte 12 takes the next byte b1 as second operator byte:
    the key is "12 " followed by the decimal text of b1 and two bytes are
    consumed; when no byte follows, the scan throws the out-of-range error.
    The operands collected so far are returned unchanged. *)
Theorem X4_operator_bytes
    (DEBUG : bool) (fuel : nat) (binEd : BinaryFontEditor.t)
    (operands : list Operand) (b0 : byte) :
  length operands ≤ 48 →
  next_byte binEd = Some b0 →
  (byte_value b0 ≤ 21)%Z →
  (byte_value b0 ≠ 12%Z →
   readOperandsOperator_loop DEBUG (S fuel) binEd operands
   = (Ret (new_keyValuePair_ (JS.toString (byte_value b0)) operands,
           skip 1 binEd), []))
  ∧ (byte_value b0 = 12%Z →
     ∀ b1, next_byte (skip 1 binEd) = Some b1 →
       readOperandsOperator_loop DEBUG (S fuel) binEd operands
       = (Ret (new_keyValuePair_ ("12 " +:+ JS.toString (byte_value b1))
                                 operands,
               skip 2 binEd), []))
  ∧ (byte_value b0 = 12%Z →
     next_byte (skip 1 binEd) = None →
     readOperandsOperator_loop DEBUG (S fuel) binEd operands
     = (Throw OutOfRange, [])).
Proof.
  intros Hlen H0 Hop.
  assert (reserved (byte_value b0) = false) as Hres
    by (unfold reserved; lia).
  rewrite loop_body by done.
  rewrite (getUint8_next _ _ H0), Hres, readOperand_operator by done.
  split_and!.
  - intros Hne. by rewrite readOperator_plain.
  - intros -> b1 H1. rewrite readOperator_escape, (getUint8_next _ _ H1).
    cbn [mbind outcome_bind]. by rewrite skip_skip.
  - intros -> H1. rewrite readOperator_escape.
    unfold getUint8. by rewrite H1.
Qed.

Lemma X4_witness :
  let binEd := BinaryFontEditor.make [x8b; x0c; x07] 0 1 in
  (byte_value x0c ≠ 12%Z →
   readOperandsOperator_loop true 48 binEd [Int 0]
   = (Ret (new_keyValuePair_ (JS.toString (byte_value x0c)) [Int 0],
           skip 1 binEd), []))
  ∧ (byte_value x0c = 12%Z →
     ∀ b1, next_byte (skip 1 binEd) = Some b1 →
       readOperandsOperator_loop true 48 binEd [Int 0]
       = (Ret (new_keyValuePair_ ("12 " +:+ JS.toString (byte_value b1))
                                 [Int 0],
               skip 2 binEd), []))
  ∧ (byte_value x0c = 12%Z →
     next_byte (skip 1 binEd) = None →
     readOperandsOperator_loop true 48 binEd [Int 0]
     = (Throw OutOfRange, [])).
Proof.
  apply (X4_operator_bytes true 47
           (BinaryFontEditor.make [x8b; x0c; x07] 0 1) [Int 0] x0c).
  - simpl. lia.
  - reflexivity.
  - vm_compute. discriminate.
Defined.

Lemma toString_byte_not_escape b text :
  JS.toString (byte_value b) ≠ "12 " +:+ text.
Proof. intros H. destruct b; vm_compute in H; discriminate H. Qed.

Lemma toString_byte_inj b b' :
  JS.toString (byte_value b) = JS.toString (byte_value b') → b = b'.
Proof. intros H%(inj pretty). by apply byte_value_inj. Qed.

(** X5: the key tells the operator.  When the operator parts of two scans
    give the same key, the operator bytes are the same, and for the escape
    byte 12 so are the second bytes: a one-byte operator and an escape
    operator never share a key, nor do two different operators of the
    same kind. *)
Theorem X5_keys_identify_operators
    (binEd binEd' binEd1 binEd1' : BinaryFontEditor.t)
    (b0 b0' : byte) (operator : string) :
  readOperator (byte_value b0) binEd = Ret (operator, binEd1) →
  readOperator (byte_value b0') binEd' = Ret (operator, binEd1') →
  b0 = b0'
  ∧ (byte_value b0 = 12%Z → next_byte binEd = next_byte binEd').
Proof.
  intros Hop Hop'.
  destruct (decide (byte_value b0 = 12%Z)) as [H12|H12];
    destruct (decide (byte_value b0' = 12%Z)) as [H12'|H12'].
  - split; [apply byte_value_inj; congruence|]. intros _.
    rewrite H12, readOperator_escape in Hop.
    rewrite H12', readOperator_escape in Hop'.
    apply bind_Ret in Hop as ([z e] & Hread & Hop).
    apply bind_Ret in Hop' as ([z' e'] & Hread' & Hop').
    apply getUint8_Ret in Hread as (b & Hb & -> & ->).
    apply getUint8_Ret in Hread' as (b' & Hb' & -> & ->).
    cbv beta iota in Hop, Hop'.
    injection Hop as <- _. injection Hop' as Heq _.
    change (JS.toString (byte_value b') = JS.toString (byte_value b)) in Heq.
    apply toString_byte_inj in Heq.
    congruence.
  - exfalso. rewrite H12, readOperator_escape in Hop.
    rewrite readOperator_plain in Hop' by done.
    apply bind_Ret in Hop as ([z e] & Hread & Hop).
    cbv beta iota in Hop.
    injection Hop as <- _. injection Hop' as Heq _.
    by apply toString_byte_not_escape in Heq.
  - exfalso. rewrite H12', readOperator_escape in Hop'.
    rewrite readOperator_plain in Hop by done.
    apply bind_Ret in Hop' as ([z e] & Hread & Hop').
    cbv beta iota in Hop'.
    injection Hop' as <- _. injection Hop as Heq _.
    by apply toString_byte_not_escape in Heq.
  - split; [|done].
    rewrite readOperator_plain in Hop, Hop' by done.
    injection Hop as <- _. injection Hop' as Heq _.
    symmetry. by apply toString_byte_inj.
Qed.

Lemma X5_witness :
  x0c = x0c
  ∧ (byte_value x0c = 12%Z →
     next_byte (BinaryFontEditor.make [x0c; x07] 0 1)
     = next_byte (BinaryFontEditor.make [x8b; x0c; x07] 0 2)).
Proof.
  apply (X5_keys_identify_operators
           (BinaryFontEditor.make [x0c; x07] 0 1)
           (BinaryFontEditor.make [x8b; x0c; x07] 0 2)
           (BinaryFontEditor.make [x0c; x07] 0 2)
           (BinaryFontEditor.make [x8b; x0c; x07] 0 3)
           x0c x0c "12 7").
  - reflexivity.
  - reflexivity.
Defined.

(* ===================================================================== *)
(** ** The text and the length of a real number                           *)
(* ===================================================================== *)

Lemma append_cons c (a b : string) : String c a +:+ b = String c (a +:+ b).
Proof. done. Qed.

Lemma append_empty_r text : text +:+ EmptyString = text.
Proof.
  induction text as [|c text IH]; [done|]. by rewrite append_cons, IH.
Qed.

Lemma append_assoc (a b c : string) : (a +:+ b) +:+ c = a +:+ (b +:+ c).
Proof.
  induction a as [|x a IH]; [done|]. by rewrite !append_cons, IH.
Qed.

Lemma string_length_app (a b : string) :
  String.length (a +:+ b) = String.length a + String.length b.
Proof.
  induction a as [|x a IH]; [done|]. rewrite append_cons. simpl.
  by rewrite IH.
Qed.

Lemma nibble_text_app (a b : string) :
  nibble_text (a +:+ b) = nibble_text a && nibble_text b.
Proof.
  unfold nibble_text. induction a as [|x a IH]; [done|].
  rewrite append_cons. simpl. rewrite IH. by rewrite andb_assoc.
Qed.

Lemma nibble_range b :
  (0 ≤ JS.sar (byte_value b) 4 ≤ 15)%Z
  ∧ (0 ≤ JS.band (byte_value b) 15 ≤ 15)%Z.
Proof.
  destruct (nibbles_of_byte b) as [-> ->].
  pose proof (byte_value_range b).
  pose proof (Z.mod_pos_bound (byte_value b) 16).
  assert (0 ≤ byte_value b `div` 16)%Z by (apply Z.div_pos; lia).
  assert (byte_value b `div` 16 < 16)%Z
    by (apply Z.div_lt_upper_bound; lia).
  lia.
Qed.

Lemma parseNibble_Return nibble operand operand' :
  parseNibble nibble operand = Return operand' →
  nibble = 15%Z ∧ operand' = operand.
Proof.
  unfold parseNibble. repeat case_match; try done.
  intros [= <-]. split; [lia | done].
Qed.

(** What one nibble appends. *)
Lemma parseNibble_suffix nibble operand :
  (0 ≤ nibble ≤ 15)%Z →
  ∃ suffix,
    nibble_text suffix = true
    ∧ String.length suffix ≤ 2
    ∧ (parseNibble nibble operand = Next (operand +:+ suffix)
       ∨ parseNibble nibble operand = Return operand).
Proof.
  intros Hrange.
  destruct (decide (nibble ≤ 9)%Z) as [Hdigit|Hother].
  - exists (JS.toString nibble).
    assert (nibble = 0 ∨ nibble = 1 ∨ nibble = 2 ∨ nibble = 3 ∨ nibble = 4
            ∨ nibble = 5 ∨ nibble = 6 ∨ nibble = 7 ∨ nibble = 8
            ∨ nibble = 9)%Z as Hcases by lia.
    split_and!.
    + repeat (destruct Hcases as [->|Hcases]; [by vm_compute|]).
      subst. by vm_compute.
    + repeat (destruct Hcases as [->|Hcases]; [vm_compute; lia|]).
      subst. vm_compute; lia.
    + left. unfold parseNibble.
      by replace (nibble <=? 9)%Z with true by lia.
  - assert (nibble = 10 ∨ nibble = 11 ∨ nibble = 12 ∨ nibble = 13
            ∨ nibble = 14 ∨ nibble = 15)%Z
      as [->|[->|[->|[->|[->| ->]]]]] by lia.
    + exists ".". split_and!; [done | simpl; lia | by left].
    + exists "E". split_and!; [done | simpl; lia | by left].
    + exists "-E". split_and!; [done | simpl; lia | by left].
    + exists EmptyString. split_and!; [done | simpl; lia |].
      left. by rewrite append_empty_r.
    + exists "-". split_and!; [done | simpl; lia | by left].
    + exists EmptyString. split_and!; [done | simpl; lia | by right].
Qed.

Lemma parseNibbles_loop_bounds fuel binEd operand cnt text binEd' :
  parseNibbles_loop fuel binEd operand cnt = Ret (text, binEd') →
  cnt ≤ 49 →
  ∃ suffix,
    text = operand +:+ suffix
    ∧ nibble_text suffix = true
    ∧ String.length suffix ≤ 4 * (49 - cnt)
    ∧ offset binEd' ≤ offset binEd + (49 - cnt)
    ∧ (cnt ≤ 48 → offset binEd < offset binEd').
Proof.
  revert binEd operand cnt.
  induction fuel as [|fuel IH]; intros binEd operand cnt.
  - simpl. destruct (cnt <=? 48) eqn:Hcnt; [done|].
    apply Nat.leb_gt in Hcnt. intros [= <- <-] Hle.
    exists EmptyString. rewrite append_empty_r.
    split_and!; try done; simpl; lia.
  - rewrite parseNibbles_loop_unfold.
    destruct (cnt <=? 48) eqn:Hcnt.
    2:{ apply Nat.leb_gt in Hcnt. intros [= <- <-] Hle.
        exists EmptyString. rewrite append_empty_r.
        split_and!; try done; simpl; lia. }
    apply Nat.leb_le in Hcnt.
    case_read binEd; [|done].
    destruct (nibble_range b) as [Hhigh Hlow].
    destruct (parseNibble_suffix _ operand Hhigh)
      as (s1 & Ht1 & Hl1 & [-> | ->]).
    2:{ intros [= <- <-] _. exists EmptyString. rewrite append_empty_r.
        split_and!; try done; simpl; lia. }
    destruct (parseNibble_suffix _ (operand +:+ s1) Hlow)
      as (s2 & Ht2 & Hl2 & [-> | ->]).
    2:{ intros [= <- <-] _. exists s1.
        split_and!; try done; simpl; lia. }
    intros Hrec _.
    pose proof (parseNibbles_loop_Ret _ _ _ _ _ _ Hrec) as [_ Hmono].
    apply IH in Hrec as (s3 & -> & Ht3 & Hl3 & Ho & _); [|lia].
    exists (s1 +:+ s2 +:+ s3). simpl in Ho, Hmono.
    split_and!.
    + by rewrite !append_assoc.
    + by rewrite !nibble_text_app, Ht1, Ht2, Ht3.
    + rewrite !string_length_app. lia.
    + lia.
    + lia.
Qed.

(** X6: a real number that [parseNibbles_] returns was read from at least
    one and at most 49 bytes; its text is made of the characters
    0123456789.E- only and has at most 196 characters. *)
Theorem X6_real_number_bounds
    (binEd : BinaryFontEditor.t) (text : string)
    (binEd' : BinaryFontEditor.t) :
  parseNibbles_ binEd = Ret (text, binEd') →
  offset binEd + 1 ≤ offset binEd'
  ∧ offset binEd' ≤ offset binEd + 49
  ∧ nibble_text text = true
  ∧ String.length text ≤ 196.
Proof.
  intros (suffix & -> & Htext & Hlen & Hmax & Hmin)%parseNibbles_loop_bounds;
    [|lia].
  change (EmptyString +:+ suffix) with suffix.
  split_and!; [|lia|done|lia].
  assert (offset binEd < offset binEd') by (apply Hmin; lia). lia.
Qed.

Lemma X6_witness :
  let binEd := BinaryFontEditor.make [x1e; xe2; xa2; x5f] 0 1 in
  let binEd' := BinaryFontEditor.make [x1e; xe2; xa2; x5f] 0 4 in
  offset binEd + 1 ≤ offset binEd'
  ∧ offset binEd' ≤ offset binEd + 49
  ∧ nibble_text "-2.25" = true
  ∧ String.length "-2.25" ≤ 196.
Proof.
  apply (X6_real_number_bounds
           (BinaryFontEditor.make [x1e; xe2; xa2; x5f] 0 1) "-2.25"
           (BinaryFontEditor.make [x1e; xe2; xa2; x5f] 0 4)).
  vm_compute. reflexivity.
Defined.

Lemma skip_zero binEd : skip 0 binEd = binEd.
Proof. by destruct binEd. Qed.

Lemma parseNibbles_loop_unterminated n binEd operand cnt :
  cnt + n = 49 →
  (∀ i, i < n →
     ∃ b, next_byte (skip i binEd) = Some b
          ∧ JS.sar (byte_value b) 4 ≠ 15%Z
          ∧ JS.band (byte_value b) 15 ≠ 15%Z) →
  ∃ text, parseNibbles_loop n binEd operand cnt = Ret (text, skip n binEd).
Proof.
  revert binEd operand cnt.
  induction n as [|n IH]; intros binEd operand cnt Hcnt Hbytes.
  - exists operand. simpl.
    replace (cnt <=? 48) with false by (symmetry; apply Nat.leb_gt; lia).
    by rewrite skip_zero.
  - rewrite parseNibbles_loop_unfold.
    replace (cnt <=? 48) with true by (symmetry; apply Nat.leb_le; lia).
    destruct (Hbytes 0) as (b & Hb & Hhigh & Hlow); [lia|].
    rewrite skip_zero in Hb. rewrite (getUint8_next _ _ Hb).
    destruct (parseNibble (JS.sar (byte_value b) 4) operand)
      as [operand1|operand1] eqn:H1.
    2:{ by apply parseNibble_Return in H1 as [? _]. }
    destruct (parseNibble (JS.band (byte_value b) 15) operand1)
      as [operand2|operand2] eqn:H2.
    2:{ by apply parseNibble_Return in H2 as [? _]. }
    destruct (IH (skip 1 binEd) operand2 (S cnt)) as [text Htext]; [lia| |].
    + intros i Hi. destruct (Hbytes (S i)) as (b' & Hb' & ?); [lia|].
      exists b'. split; [|done].
      rewrite skip_skip. by replace (i + 1) with (S i) by lia.
    + exists text. rewrite Htext, skip_skip.
      by replace (n + 1) with (S n) by lia.
Qed.

(** X7: a real number without terminator is cut after 49 bytes.  When none
    of the 49 bytes under the cursor has a nibble 0xf, [parseNibbles_]
    returns the text it has built with the cursor 49 bytes further: no
    error is raised and the 50th byte is not read. *)
Theorem X7_unterminated_real_number_is_cut
    (binEd : BinaryFontEditor.t) :
  (∀ i, i < 49 →
     ∃ b, next_byte (skip i binEd) = Some b
          ∧ JS.sar (byte_value b) 4 ≠ 15%Z
          ∧ JS.band (byte_value b) 15 ≠ 15%Z) →
  ∃ text,
    parseNibbles_ binEd = Ret (text, skip 49 binEd)
    ∧ nibble_text text = true.
Proof.
  intros Hbytes.
  destruct (parseNibbles_loop_unterminated 49 binEd EmptyString 0)
    as [text Htext]; [done | done |].
  exists text. split; [done|].
  apply parseNibbles_loop_bounds in Htext as (suffix & -> & ? & _); [|lia].
  done.
Qed.

Lemma X7_witness :
  ∃ text,
    parseNibbles_ (BinaryFontEditor.make (replicate 50 x12) 0 0)
    = Ret (text, skip 49 (BinaryFontEditor.make (replicate 50 x12) 0 0))
    ∧ nibble_text text = true.
Proof.
  apply (X7_unterminated_real_number_is_cut
           (BinaryFontEditor.make (replicate 50 x12) 0 0)).
  intros i Hi.
  do 49 (destruct i as [|i];
         [ exists x12; split; [reflexivity | split; vm_compute; discriminate]
         | ]).
  lia.
Defined.

(* ===================================================================== *)
(** ** The errors of the decoder                                          *)
(* ===================================================================== *)

Lemma bind_Throw {A B} (m : outcome A) (f : A → outcome B) (e : error) :
  m ≫= f = Throw e → m = Throw e ∨ ∃ a, m = Ret a ∧ f a = Throw e.
Proof.
  destruct m as [a| |]; cbn [mbind outcome_bind].
  - intros H. right. by exists a.
  - intros [= ->]. by left.
  - done.
Qed.

Lemma getUint8_Throw binEd e :
  getUint8 binEd = Throw e → e = OutOfRange ∧ next_byte binEd = None.
Proof.
  unfold getUint8. destruct (next_byte binEd); [done|]. by intros [= <-].
Qed.

Lemma parseNibbles_loop_Throw fuel binEd operand cnt e :
  parseNibbles_loop fuel binEd operand cnt = Throw e → e = OutOfRange.
Proof.
  revert binEd operand cnt.
  induction fuel as [|fuel IH]; intros binEd operand cnt.
  - simpl. by destruct (cnt <=? 48).
  - rewrite parseNibbles_loop_unfold. destruct (cnt <=? 48); [|done].
    destruct (getUint8 binEd) as [[aByte binEd1]| |] eqn:Hread.
    + destruct (parseNibble _ operand); [|done].
      destruct (parseNibble _ _); [|done]. apply IH.
    + intros [= <-]. by apply getUint8_Throw in Hread as [? _].
    + done.
Qed.

Lemma parseNibbles_Throw binEd e :
  parseNibbles_ binEd = Throw e → e = OutOfRange.
Proof. apply parseNibbles_loop_Throw. Qed.

(** Inversion of a chain of binds that threw. *)
Ltac throw_inv H :=
  repeat
    match type of H with
    | (_ ≫= _) = Throw _ =>
        let Hm := fresh "Hm" in
        apply bind_Throw in H as [H|([? ?] & Hm & H)];
        [ | cbv beta iota in H ]
    end;
  try discriminate H.

Lemma readOperand_Throw b0 binEd e :
  readOperand b0 binEd = Throw e → e = OutOfRange.
Proof.
  destruct (readOperand_cases b0 binEd)
    as [[_ ->]|[[_ ->]|[[_ ->]|[[_ ->]|[[_ ->]|[[_ ->]|[_ ->]]]]]]];
    intros H; throw_inv H;
    first [ by apply getUint8_Throw in H as [? _]
          | by apply parseNibbles_Throw in H ].
Qed.

Lemma readOperator_Throw b0 binEd e :
  readOperator b0 binEd = Throw e → e = OutOfRange.
Proof.
  unfold readOperator. case_match; [|done].
  intros Hthrow. throw_inv Hthrow.
  by apply getUint8_Throw in Hthrow as [? _].
Qed.

Lemma loop_Throw DEBUG fuel binEd operands e :
  fst (readOperandsOperator_loop DEBUG fuel binEd operands) = Throw e →
  e = OutOfRange
  ∨ ∃ b, e = ReservedOperandByte (byte_value b)
         ∧ reserved (byte_value b) = true.
Proof.
  revert binEd operands.
  induction fuel as [|fuel IH]; intros binEd operands.
  - simpl. by destruct (length operands <=? 48).
  - destruct (decide (length operands ≤ 48)) as [Hle|Hgt].
    2:{ by rewrite loop_exit by lia. }
    rewrite loop_body by done.
    destruct (getUint8 binEd) as [[b0 binEd1]| |] eqn:Hread.
    + apply getUint8_Ret in Hread as (b & _ & -> & ->).
      destruct (reserved (byte_value b)) eqn:Hres.
      { intros [= <-]. right. by exists b. }
      destruct (readOperand _ _) as [[[operand|] binEd2]| |] eqn:Hop.
      * apply IH.
      * destruct (readOperator _ _) as [[operator binEd3]| |] eqn:Hor;
          try done.
        intros [= <-]. left. by apply readOperator_Throw in Hor.
      * intros [= <-]. left. by apply readOperand_Throw in Hop.
      * done.
    + intros [= <-]. left. by apply getUint8_Throw in Hread as [? _].
    + done.
Qed.

Lemma init_loop_Throw DEBUG inherited_text fuel this binEd e :
  fst (init_loop DEBUG inherited_text fuel this binEd) = Throw e →
  e = OutOfRange
  ∨ (∃ b, e = ReservedOperandByte (byte_value b)
          ∧ reserved (byte_value b) = true)
  ∨ (e = TypeError_push_of_undefined ∧ keys_ this = None).
Proof.
  revert this binEd.
  induction fuel as [|fuel IH]; intros this binEd.
  - simpl. by destruct (offset binEd <? length (dataView_ this)).
  - destruct (decide (offset binEd < length (dataView_ this))) as [Hlt|Hge].
    2:{ by rewrite init_loop_exit by lia. }
    rewrite init_loop_body by done.
    destruct (fst (readOperandsOperator_ DEBUG binEd))
      as [[keyValuePair binEd']| |] eqn:Hscan.
    + cbn [mbind outcome_bind]. unfold keys_push.
      destruct (keys_ this) as [keys|] eqn:Hkeys.
      * cbn [fst mret logged_ret mbind outcome_bind].
        intros [?|[?|[_ Hnone]]]%IH; [by left | by right; left | done].
      * intros [= <-]. by right; right.
    + intros [= <-]. apply loop_Throw in Hscan as [?|?];
        [by left | by right; left].
    + done.
Qed.

(** X8: the errors of [loadDict].  A region that does not fit the buffer,
    offset + length above the size of the buffer, always makes the call
    throw the region error of the DataView, before anything is read or
    logged.  Conversely, whenever the call throws, the error is that region
    error only if the region does not fit; for a region that fits it is the
    out-of-range error of a read past the region, the reserved-byte error
    for a byte in 22..27, 31, 255, or -- only when goog.DEBUG is off -- the
    TypeError of the push on the missing key list.  It never throws the
    invalid-key error of [get]. *)
Theorem X8_errors_of_loadDict
    (DEBUG : bool) (inherited_text : string → string)
    (name : string) (buffer : list byte) (offset length : nat)
    (opt_dictOperators : option (gmap string string)) :
  (List.length buffer < offset + length →
   loadDict DEBUG inherited_text name buffer offset length opt_dictOperators
   = (Throw InvalidRegion, []))
  ∧ ∀ e : error,
      fst (loadDict DEBUG inherited_text name buffer offset length
                    opt_dictOperators) = Throw e →
      match e with
      | InvalidRegion => List.length buffer < offset + length
      | OutOfRange => offset + length ≤ List.length buffer
      | ReservedOperandByte b0 =>
          offset + length ≤ List.length buffer
          ∧ b0 ∈ [22; 23; 24; 25; 26; 27; 31; 255]%Z
      | TypeError_push_of_undefined =>
          offset + length ≤ List.length buffer ∧ DEBUG = false
      | InvalidKeyLookup _ => False
      end
      ∧ (List.length buffer < offset + length → e = InvalidRegion).
Proof.
  split.
  - intros Hbig. apply Nat.leb_gt in Hbig.
    unfold loadDict, new_DataView. by rewrite Hbig.
  - intros e. rewrite loadDict_unfold. unfold new_DataView.
    destruct (offset + length <=? List.length buffer) eqn:Hfit.
    + apply Nat.leb_le in Hfit. cbn [mbind outcome_bind]. unfold init_.
      intros Hthrow. split; [|lia]. revert Hthrow.
      intros [->|[(b & -> & Hres)|[-> Hnone]]]%init_loop_Throw.
      * done.
      * split; [done|]. by apply reserved_spec.
      * split; [done|]. unfold before_init in Hnone. by destruct DEBUG.
    + apply Nat.leb_gt in Hfit. by intros [= <-].
Qed.

Lemma X8_witness :
  (List.length [x8b; x8c; x05] < 2 + 2
   ∧ loadDict true no_text "Private" [x8b; x8c; x05] 2 2
              (Some TOP_DICT_OPERATORS)
     = (Throw InvalidRegion, []))
  ∧ ((3 + 2 ≤ List.length [x00; x00; x00; x8b; x1f]
      ∧ 31%Z ∈ [22; 23; 24; 25; 26; 27; 31; 255]%Z)
     ∧ (List.length [x00; x00; x00; x8b; x1f] < 3 + 2 →
        ReservedOperandByte 31 = InvalidRegion)).
Proof.
  split.
  - split; [simpl; lia|].
    apply (proj1 (X8_errors_of_loadDict true no_text "Private"
                    [x8b; x8c; x05] 2 2 (Some TOP_DICT_OPERATORS))).
    simpl. lia.
  - apply (proj2 (X8_errors_of_loadDict true no_text "Private"
                    [x00; x00; x00; x8b; x1f] 3 2 None)
                 (ReservedOperandByte 31)).
    vm_compute. reflexivity.
Defined.

Lemma scan_out_of_range DEBUG s binEd operands :
  rtc operand_step s (binEd, operands) →
  length operands ≤ 48 →
  next_byte binEd = None →
  ∀ fuel, 49 - length s.2 ≤ fuel →
    fst (readOperandsOperator_loop DEBUG fuel s.1 s.2) = Throw OutOfRange.
Proof.
  intros Hsteps Hlen Hb.
  remember (binEd, operands) as s' eqn:Hs'.
  induction Hsteps as [s|s1 s2 s3 Hstep _ IH]; intros fuel Hfuel.
  - subst s. cbn [fst snd] in *. destruct fuel as [|fuel]; [lia|].
    rewrite loop_body by done. unfold getUint8. by rewrite Hb.
  - specialize (IH Hs').
    assert (length s1.2 ≤ 48 ∧ length s2.2 = S (length s1.2)) as [Hl1 Hl2].
    { destruct Hstep. simpl. rewrite length_app. simpl. lia. }
    destruct fuel as [|fuel]; [lia|].
    rewrite (loop_operand DEBUG fuel _ _ Hstep). apply IH. lia.
Qed.

(** X9: operands that no operator follows.  When, after any number of
    complete tokens, the region ends behind one or more operands of a token
    (at most 48), [loadDict] throws the out-of-range error: the operands
    are not stored under any key and no Dict is returned. *)
Theorem X9_trailing_operands_are_out_of_range
    (DEBUG : bool) (inherited_text : string → string)
    (name : string) (buffer : list byte) (offset length : nat)
    (opt_dictOperators : option (gmap string string))
    (dataView : list byte) (this : CffDict.t)
    (binEd0 binEd : BinaryFontEditor.t) (operands : list Operand) :
  new_DataView buffer offset length = Ret dataView →
  rtc (token_step DEBUG)
      (before_init DEBUG name dataView opt_dictOperators,
       BinaryFontEditor.make dataView 0 0)
      (this, binEd0) →
  rtc operand_step (binEd0, []) (binEd, operands) →
  1 ≤ List.length operands ≤ 48 →
  next_byte binEd = None →
  fst (loadDict DEBUG inherited_text name buffer offset length
                opt_dictOperators)
  = Throw OutOfRange.
Proof.
  intros Hview Htokens Hoperands Hlen Hb.
  rewrite loadDict_unfold, Hview. cbn [mbind outcome_bind]. unfold init_.
  pose proof (token_steps_inv _ _ _ Htokens) as (Hd & [Hv1 Hb1] & Ho1).
  assert (dataView_ (before_init DEBUG name dataView opt_dictOperators)
          = dataView) as Hdv.
  { unfold before_init. by destruct DEBUG. }
  cbn [fst snd] in Hd, Hv1, Hb1, Ho1. rewrite Hdv in Hd.
  assert (BinaryFontEditor.offset binEd0 < List.length dataView) as Hin.
  { inversion Hoperands as [|? [binEd1 operands1] ? Hstep _]; subst.
    { simpl in Hlen. lia. }
    inversion Hstep as [? ? b0 ? ? ? _ Hread _ _]; subst.
    apply getUint8_Ret in Hread as (b & Hnext & _).
    apply lookup_lt_Some in Hnext. rewrite Hv1, Hb1 in Hnext.
    simpl in Hnext. lia. }
  rewrite Hdv.
  apply (decode_throws DEBUG inherited_text _ _ _ Htokens);
    cbn [fst snd].
  - rewrite Hd. lia.
  - apply (scan_out_of_range DEBUG _ _ _ Hoperands); [lia | done |].
    simpl. lia.
  - rewrite Hdv. simpl. lia.
Qed.

Lemma X9_witness :
  fst (loadDict true no_text "Top" [x8b; x05; x8c; x8d] 0 4 None)
  = Throw OutOfRange.
Proof.
  apply (X9_trailing_operands_are_out_of_range true no_text "Top"
           [x8b; x05; x8c; x8d] 0 4 None [x8b; x05; x8c; x8d]
           (dict_set
              (CffDict.make "Top" [x8b; x05; x8c; x8d] (Some ["5"]) ∅ None)
              "5" [Int 0])
           (BinaryFontEditor.make [x8b; x05; x8c; x8d] 0 2)
           (BinaryFontEditor.make [x8b; x05; x8c; x8d] 0 4)
           [Int 1; Int 2]).
  - reflexivity.
  - eapply rtc_l; [|apply rtc_refl].
    apply (token_step_intro true
             (before_init true "Top" [x8b; x05; x8c; x8d] None)
             (BinaryFontEditor.make [x8b; x05; x8c; x8d] 0 0)
             (new_keyValuePair_ "5" [Int 0])
             (BinaryFontEditor.make [x8b; x05; x8c; x8d] 0 2)
             (CffDict.make "Top" [x8b; x05; x8c; x8d] (Some ["5"]) ∅ None)).
    + simpl. lia.
    + reflexivity.
    + reflexivity.
  - do 2 one_operand_step. apply rtc_refl.
  - simpl. lia.
  - reflexivity.
Defined.

(* ===================================================================== *)
(** ** What a returned Dict holds                                         *)
(* ===================================================================== *)

Lemma readOperand_ok b binEd operand binEd' :
  readOperand (byte_value b) binEd = Ret (Some operand, binEd') →
  Operand_ok operand.
Proof.
  pose proof (byte_value_range b) as Hb.
  destruct (readOperand_cases (byte_value b) binEd)
    as [[Hr ->]|[[Hr ->]|[[Hr ->]|[[_ ->]|[[_ ->]|[[_ ->]|[_ ->]]]]]]];
    intros Hop; bind_inv Hop;
    repeat match goal with
           | Hread : getUint8 _ = Ret _ |- _ => read_inv Hread
           end;
    try (injection Hop as <- _).
  - simpl. lia.
  - pose proof (byte_value_range b0). simpl. lia.
  - pose proof (byte_value_range b0). simpl. lia.
  - apply ToInt32_range.
  - apply ToInt32_range.
  - simpl.
    match goal with
    | Hp : parseNibbles_ _ = Ret _ |- _ =>
        apply parseNibbles_loop_bounds in Hp as (suffix & -> & ? & _);
          [done | lia]
    end.
  - done.
Qed.

Lemma operand_steps_ok s s' :
  rtc operand_step s s' →
  Forall Operand_ok s.2 → Forall Operand_ok s'.2.
Proof.
  induction 1 as [s|s1 s2 s3 Hstep _ IH]; [done|].
  intros Hok. apply IH.
  destruct Hstep as [binEd operands b0 binEd1 operand binEd2 _ Hread _ Hop].
  apply getUint8_Ret in Hread as (b & _ & -> & ->).
  cbn [fst snd] in *. apply Forall_app. split; [done|].
  apply Forall_singleton. by eapply readOperand_ok.
Qed.

Lemma scan_ok DEBUG binEd keyValuePair binEd' :
  fst (readOperandsOperator_ DEBUG binEd) = Ret (keyValuePair, binEd') →
  length (value keyValuePair) ≤ 49
  ∧ Forall Operand_ok (value keyValuePair)
  ∧ (∃ token, key keyValuePair = token_string token)
  ∧ offset binEd < offset binEd'.
Proof.
  destruct (readOperandsOperator_ DEBUG binEd) as [r l] eqn:Hscan.
  simpl. intros ->.
  pose proof (readOperandsOperator_Ret _ _ _ _ _ Hscan)
    as (_ & _ & Hoff & Hlen & _ & Htoken).
  apply loop_Ret_run in Hscan as (binEd1 & Hrun & _).
  split_and!; try done.
  by apply (operand_steps_ok _ _ Hrun).
Qed.

Lemma scanAll_inv DEBUG fuel byteLength binEd keyValuePairs :
  scanAll DEBUG fuel byteLength binEd = Ret keyValuePairs →
  length keyValuePairs ≤ byteLength - offset binEd
  ∧ Forall (λ kv, length (value kv) ≤ 49
                  ∧ Forall Operand_ok (value kv)
                  ∧ ∃ token, key kv = token_string token) keyValuePairs.
Proof.
  revert binEd keyValuePairs.
  induction fuel as [|fuel IH]; intros binEd kvs.
  - simpl. destruct (offset binEd <? byteLength); [done|].
    intros [= <-]. split; [simpl; lia | done].
  - destruct (decide (offset binEd < byteLength)) as [Hlt|Hge].
    2:{ rewrite scanAll_exit by lia. intros [= <-].
        split; [simpl; lia | done]. }
    rewrite scanAll_body by done.
    destruct (fst (readOperandsOperator_ DEBUG binEd))
      as [[kv binEd']| |] eqn:Hscan; try done.
    cbn [mbind outcome_bind].
    destruct (scanAll DEBUG fuel byteLength binEd') as [rest| |] eqn:Hrest;
      try done.
    cbn [mbind outcome_bind]. intros [= <-].
    apply IH in Hrest as [Hcount Hall].
    apply scan_ok in Hscan as (? & ? & ? & ?).
    split; [simpl; lia|]. by apply Forall_cons.
Qed.

Lemma last_value_Some_inv token keyValuePairs operands :
  last_value token keyValuePairs = Some operands →
  ∃ kv, kv ∈ keyValuePairs ∧ key kv = token ∧ value kv = operands.
Proof.
  induction keyValuePairs as [|kv kvs IH] using rev_ind; [done|].
  rewrite last_value_snoc. case_decide as Hkv.
  - intros [= <-]. exists kv. split; [|done].
    apply elem_of_app. right. by apply list_elem_of_singleton.
  - intros (kv' & Hin & ?)%IH. exists kv'. split; [|done].
    apply elem_of_app. by left.
Qed.

Lemma last_value_is_Some token keyValuePairs :
  token ∈ key <$> keyValuePairs → is_Some (last_value token keyValuePairs).
Proof.
  induction keyValuePairs as [|kv kvs IH] using rev_ind.
  { by intros ?%elem_of_nil. }
  rewrite fmap_app, last_value_snoc. case_decide as Hkv; [by eexists|].
  intros [Hin|Hin]%elem_of_app; [by apply IH|].
  simpl in Hin. by apply list_elem_of_singleton in Hin.
Qed.

(** What [loadDict] returns, in terms of the scans of the region. *)
Lemma loadDict_Ret DEBUG inherited_text name buffer offset length
    opt_dictOperators dict :
  fst (loadDict DEBUG inherited_text name buffer offset length
                opt_dictOperators) = Ret dict →
  ∃ dataView keyValuePairs,
    new_DataView buffer offset length = Ret dataView
    ∧ List.length dataView = length
    ∧ scanAll DEBUG (List.length dataView) (List.length dataView)
              (BinaryFontEditor.make dataView 0 0) = Ret keyValuePairs
    ∧ keys_ dict = (if DEBUG then Some (key <$> keyValuePairs) else None)
    ∧ (DEBUG = false → keyValuePairs = [])
    ∧ (∀ token, dict_ dict !! token = last_value token keyValuePairs)
    ∧ name_ dict = name
    ∧ dataView_ dict = dataView
    ∧ dictOperators_ dict = (if DEBUG then opt_dictOperators else None).
Proof.
  rewrite loadDict_unfold.
  destruct (new_DataView buffer offset length) as [dataView| |] eqn:Hview;
    try done.
  cbn [mbind outcome_bind]. unfold init_.
  assert (dataView_ (before_init DEBUG name dataView opt_dictOperators)
          = dataView
          ∧ dict_ (before_init DEBUG name dataView opt_dictOperators) = ∅
          ∧ keys_ (before_init DEBUG name dataView opt_dictOperators)
            = (if DEBUG then Some [] else None)
          ∧ name_ (before_init DEBUG name dataView opt_dictOperators) = name
          ∧ dictOperators_ (before_init DEBUG name dataView opt_dictOperators)
            = (if DEBUG then opt_dictOperators else None))
    as (Hdv & Hdict & Hkeys & Hname & Hops)
    by (unfold before_init; by destruct DEBUG).
  rewrite Hdv.
  intros (kvs & Hscan & Hk & Hnone & Hd & Hn & Hv & Ho)%init_loop_scanAll.
  rewrite Hdv in Hscan. rewrite Hkeys in Hk, Hnone. rewrite Hdict in Hd.
  exists dataView, kvs. split_and!; try done; try congruence.
  - unfold new_DataView in Hview.
    destruct (offset + length <=? List.length buffer) eqn:Hfit; [|done].
    apply Nat.leb_le in Hfit. injection Hview as <-.
    rewrite length_take, length_drop. lia.
  - rewrite Hk. by destruct DEBUG.
  - intros ->. by apply Hnone.
  - intros token. rewrite Hd, lookup_foldl_insert.
    destruct (last_value token kvs); [done | apply lookup_empty].
Qed.

(** X10: the values of a returned Dict.  Every entry of the mapping of a
    Dict that [loadDict] returns has an operator token as key and at most
    49 operands, each of which is an integer in [-2^31, 2^31 - 1] or a text
    made of the characters 0123456789.E- only. *)
Theorem X10_values_of_a_dict
    (DEBUG : bool) (inherited_text : string → string)
    (name : string) (buffer : list byte) (offset length : nat)
    (opt_dictOperators : option (gmap string string)) (dict : CffDict.t)
    (key : string) (operands : list Operand) :
  fst (loadDict DEBUG inherited_text name buffer offset length
                opt_dictOperators) = Ret dict →
  dict_ dict !! key = Some operands →
  (∃ token, key = token_string token)
  ∧ List.length operands ≤ 49
  ∧ Forall Operand_ok operands.
Proof.
  intros (dataView & kvs & _ & _ & Hscan & _ & _ & Hlookup & _)%loadDict_Ret.
  rewrite Hlookup.
  intros (kv & Hin & <- & <-)%last_value_Some_inv.
  apply scanAll_inv in Hscan as [_ Hall].
  rewrite Forall_forall in Hall. by destruct (Hall kv Hin) as (? & ? & ?).
Qed.

Lemma X10_witness :
  (∃ token, "12 7" = token_string token)
  ∧ List.length [Int (-108); Real "1.5"] ≤ 49
  ∧ Forall Operand_ok [Int (-108); Real "1.5"].
Proof.
  apply (X10_values_of_a_dict true no_text "Top"
           [xfb; x00; x1e; x1a; x5f; x0c; x07] 0 7 None
           (CffDict.make "Top" [xfb; x00; x1e; x1a; x5f; x0c; x07]
                         (Some ["12 7"])
                         {[ "12 7" := [Int (-108); Real "1.5"] ]} None)
           "12 7" [Int (-108); Real "1.5"]).
  - vm_compute. reflexivity.
  - vm_compute. reflexivity.
Defined.

(** X11: the keys of a returned Dict can all be looked up.  For a Dict that
    [loadDict] returns, [getName] is the name given, the key list has at
    most one key per byte of the region, and [get] on every key of the key
    list returns an operand list instead of throwing. *)
Theorem X11_every_key_can_be_looked_up
    (DEBUG : bool) (inherited_text : string → string)
    (name : string) (buffer : list byte) (offset length : nat)
    (opt_dictOperators : option (gmap string string)) (dict : CffDict.t)
    (keys : list string) :
  fst (loadDict DEBUG inherited_text name buffer offset length
                opt_dictOperators) = Ret dict →
  getKeys dict = Some keys →
  getName dict = name
  ∧ List.length keys ≤ length
  ∧ ∀ key, key ∈ keys →
      ∃ operands, get dict key = (dict, Ret (Own operands)).
Proof.
  intros (dataView & kvs & _ & Hlen & Hscan & Hkeys & _ & Hlookup & Hname & _)
           %loadDict_Ret Hget.
  unfold getKeys in Hget. rewrite Hkeys in Hget.
  destruct DEBUG; [|done]. injection Hget as <-.
  apply scanAll_inv in Hscan as [Hcount _]. simpl in Hcount.
  split_and!; [done | rewrite length_fmap; lia |].
  intros key [operands Hsome]%last_value_is_Some.
  exists operands. unfold get, JS.has_property, JS.get_property.
  rewrite Hlookup, Hsome. done.
Qed.

Lemma X11_witness :
  let dict := CffDict.make "Top" [x8b; x05; x0c; x07; x8c; x05]
                (Some ["5"; "12 7"; "5"])
                (<["5" := [Int 1]]> (<["12 7" := []]> {[ "5" := [Int 0] ]}))
                None in
  getName dict = "Top"
  ∧ List.length ["5"; "12 7"; "5"] ≤ 6
  ∧ ∀ key, key ∈ ["5"; "12 7"; "5"] →
      ∃ operands, get dict key = (dict, Ret (Own operands)).
Proof.
  apply (X11_every_key_can_be_looked_up true no_text "Top"
           [x8b; x05; x0c; x07; x8c; x05] 0 6 None).
  - vm_compute. reflexivity.
  - reflexivity.
Defined.

(* ===================================================================== *)
(** ** Empty regions, builds without goog.DEBUG, the log, termination     *)
(* ===================================================================== *)

Lemma init_loop_unfold DEBUG inherited_text fuel this binEd :
  init_loop DEBUG inherited_text (S fuel) this binEd
  = if (offset binEd <? length (dataView_ this))%nat then
      '(keyValuePair, binEd) ← readOperandsOperator_ DEBUG binEd;
      _ ← (if DEBUG
           then log_info ("  " +:+ Array_toString (value keyValuePair)
                            +:+ " "
                            +:+ label inherited_text this (key keyValuePair))
           else mret ());
      this ← keys_push this (key keyValuePair);
      let this := dict_set this (key keyValuePair) (value keyValuePair) in
      init_loop DEBUG inherited_text fuel this binEd
    else mret this.
Proof. done. Qed.

(** X12: an empty region.  With length 0 and an offset inside the buffer,
    [loadDict] returns at once, without reading a byte or logging a line, a
    Dict with the given name, no key and no entry: its key list is empty
    (undefined when goog.DEBUG is off) and [get] throws for every operator
    token. *)
Theorem X12_empty_region
    (DEBUG : bool) (inherited_text : string → string)
    (name : string) (buffer : list byte) (offset : nat)
    (opt_dictOperators : option (gmap string string)) :
  offset ≤ List.length buffer →
  let dict :=
    CffDict.make name [] (if DEBUG then Some [] else None) ∅
                 (if DEBUG then opt_dictOperators else None) in
  loadDict DEBUG inherited_text name buffer offset 0 opt_dictOperators
  = (Ret dict, [])
  ∧ getName dict = name
  ∧ getKeys dict = (if DEBUG then Some [] else None)
  ∧ ∀ token,
      ∃ message,
        get dict (token_string token)
        = (dict, Throw (InvalidKeyLookup message)).
Proof.
  intros Hoff dict. split_and!.
  - unfold loadDict, new_DataView.
    replace (offset + 0 <=? List.length buffer) with true
      by (symmetry; apply Nat.leb_le; lia).
    rewrite bind_lift. unfold init_, before_init, dict.
    by destruct DEBUG.
  - done.
  - done.
  - intros token. eexists. unfold get, JS.has_property.
    rewrite token_string_inherited. unfold dict. simpl.
    rewrite lookup_empty. reflexivity.
Qed.

Lemma X12_witness :
  let dict := CffDict.make "Private" [] (if true then Some [] else None) ∅
                (if true then Some TOP_DICT_OPERATORS else None) in
  loadDict true no_text "Private" [x8b; x05] 2 0 (Some TOP_DICT_OPERATORS)
  = (Ret dict, [])
  ∧ getName dict = "Private"
  ∧ getKeys dict = (if true then Some [] else None)
  ∧ ∀ token,
      ∃ message,
        get dict (token_string token)
        = (dict, Throw (InvalidKeyLookup message)).
Proof.
  apply (X12_empty_region true no_text "Private" [x8b; x05] 2
           (Some TOP_DICT_OPERATORS)).
  simpl. lia.
Defined.

(** X13: a build without goog.DEBUG cannot load a region that has a byte.
    The constructor creates the key list only under goog.DEBUG while
    [init_] pushes to it in any case: with the flag off and a region of one
    byte or more, [loadDict] never returns a Dict, and when the first scan
    returns a token the call throws the TypeError of the push. *)
Theorem X13_without_debug_no_region_loads
    (inherited_text : string → string)
    (name : string) (buffer : list byte) (offset length : nat)
    (opt_dictOperators : option (gmap string string))
    (dataView : list byte) :
  new_DataView buffer offset length = Ret dataView →
  0 < length →
  (∀ dict, fst (loadDict false inherited_text name buffer offset length
                         opt_dictOperators) ≠ Ret dict)
  ∧ (∀ keyValuePair binEd,
       fst (readOperandsOperator_ false (BinaryFontEditor.make dataView 0 0))
       = Ret (keyValuePair, binEd) →
       fst (loadDict false inherited_text name buffer offset length
                     opt_dictOperators)
       = Throw TypeError_push_of_undefined).
Proof.
  intros Hview Hlen.
  assert (List.length dataView = length) as Hdv.
  { unfold new_DataView in Hview.
    destruct (offset + length <=? List.length buffer) eqn:Hfit; [|done].
    apply Nat.leb_le in Hfit. injection Hview as <-.
    rewrite length_take, length_drop. lia. }
  rewrite loadDict_unfold, Hview. cbn [mbind outcome_bind].
  unfold init_, before_init. cbn [dataView_ new].
  destruct (List.length dataView) as [|fuel] eqn:Hfuel; [lia|].
  rewrite init_loop_body by (simpl; lia).
  destruct (fst (readOperandsOperator_ false _))
    as [[keyValuePair binEd]| |]; split; done.
Qed.

Lemma X13_witness :
  (∀ dict, fst (loadDict false no_text "Top" [x8b; x05] 0 2 None)
           ≠ Ret dict)
  ∧ (∀ keyValuePair binEd,
       fst (readOperandsOperator_
              false (BinaryFontEditor.make [x8b; x05] 0 0))
       = Ret (keyValuePair, binEd) →
       fst (loadDict false no_text "Top" [x8b; x05] 0 2 None)
       = Throw TypeError_push_of_undefined).
Proof.
  apply (X13_without_debug_no_region_loads no_text "Top" [x8b; x05] 0 2 None
           [x8b; x05]).
  - reflexivity.
  - lia.
Defined.

Lemma snd_bind {A B} (m : logged A) (f : A → logged B) :
  snd (m ≫= f)
  = snd m ++ match fst m with
             | Ret a => snd (f a)
             | _ => []
             end.
Proof.
  destruct m as [[a| |] l]; unfold mbind, logged_bind; simpl.
  - by destruct (f a).
  - by rewrite app_nil_r.
  - by rewrite app_nil_r.
Qed.

Lemma loop_log_without_debug fuel binEd operands :
  snd (readOperandsOperator_loop false fuel binEd operands) = [].
Proof.
  revert binEd operands.
  induction fuel as [|fuel IH]; intros binEd operands.
  - simpl. by destruct (length operands <=? 48).
  - destruct (decide (length operands ≤ 48)) as [Hle|Hgt].
    2:{ by rewrite loop_exit by lia. }
    rewrite loop_body by done.
    destruct (getUint8 binEd) as [[b0 binEd1]| |]; try done.
    destruct (reserved b0); [done|].
    destruct (readOperand b0 binEd1) as [[[operand|] binEd2]| |]; try done.
    by destruct (readOperator b0 binEd2) as [[operator binEd3]| |].
Qed.

Lemma init_loop_log_without_debug inherited_text fuel this binEd :
  snd (init_loop false inherited_text fuel this binEd) = [].
Proof.
  revert this binEd.
  induction fuel as [|fuel IH]; intros this binEd.
  - simpl. by destruct (offset binEd <? length (dataView_ this)).
  - rewrite init_loop_unfold.
    destruct (offset binEd <? length (dataView_ this)); [|done].
    rewrite snd_bind.
    unfold readOperandsOperator_ at 1. rewrite loop_log_without_debug.
    destruct (fst (readOperandsOperator_ false binEd))
      as [[keyValuePair binEd']| |]; try done.
    rewrite !snd_bind. cbn [fst snd mret logged_ret].
    unfold keys_push. destruct (keys_ this); [|done].
    cbn [fst snd mret logged_ret]. by rewrite IH.
Qed.

Lemma label_operators inherited_text this this' key :
  dictOperators_ this' = dictOperators_ this →
  label inherited_text this' key = label inherited_text this key.
Proof. unfold label. by intros ->. Qed.

Lemma init_loop_log_with_debug inherited_text fuel this binEd dict :
  fst (init_loop true inherited_text fuel this binEd) = Ret dict →
  ∃ keyValuePairs,
    scanAll true fuel (length (dataView_ this)) binEd = Ret keyValuePairs
    ∧ snd (init_loop true inherited_text fuel this binEd)
      = (λ kv, log_line (label inherited_text this (key kv)) kv)
          <$> keyValuePairs.
Proof.
  revert this binEd.
  induction fuel as [|fuel IH]; intros this binEd.
  - destruct (decide (offset binEd < length (dataView_ this))) as [Hlt|Hge].
    { simpl. apply Nat.ltb_lt in Hlt. by rewrite Hlt. }
    rewrite init_loop_exit, scanAll_exit by lia. intros _. by exists [].
  - destruct (decide (offset binEd < length (dataView_ this))) as [Hlt|Hge].
    2:{ rewrite init_loop_exit, scanAll_exit by lia. intros _.
        by exists []. }
    rewrite init_loop_body, scanAll_body by done.
    rewrite init_loop_unfold.
    replace (offset binEd <? length (dataView_ this)) with true
      by (symmetry; by apply Nat.ltb_lt).
    rewrite snd_bind.
    destruct (readOperandsOperator_ true binEd)
      as [[[keyValuePair binEd']| |] l] eqn:Hscan; try done.
    apply readOperandsOperator_Ret in Hscan as (-> & _).
    cbn [fst snd mbind outcome_bind].
    rewrite !snd_bind. cbn [fst snd log_info].
    destruct (keys_push this (key keyValuePair)) as [[this'| |] l'] eqn:Hpush;
      try done.
    apply keys_push_Ret in Hpush as (keys & Hkeys & -> & ->).
    cbn [fst snd mbind outcome_bind].
    intros Hret. destruct (IH _ _ Hret) as (kvs & Hrest & Hlog).
    cbn [dataView_ dict_set] in Hrest. rewrite Hrest.
    exists (keyValuePair :: kvs). split; [done|].
    by rewrite Hlog.
Qed.

Lemma loadDict_log DEBUG inherited_text name buffer offset length
    opt_dictOperators dataView :
  new_DataView buffer offset length = Ret dataView →
  snd (loadDict DEBUG inherited_text name buffer offset length
                opt_dictOperators)
  = snd (init_ DEBUG inherited_text
           (before_init DEBUG name dataView opt_dictOperators)).
Proof. intros Hview. unfold loadDict. by rewrite snd_bind, Hview. Qed.

Lemma label_token inherited_text this token :
  label inherited_text this (token_string token)
  = match dictOperators_ this with
    | Some dictOperators =>
        default (token_string token) (dictOperators !! token_string token)
    | None => token_string token
    end.
Proof.
  unfold label, JS.has_property, JS.get_property.
  rewrite token_string_inherited.
  destruct (dictOperators_ this) as [dictOperators|]; [|done].
  destruct (dictOperators !! token_string token) as [name|] eqn:Hname.
  - by rewrite bool_decide_eq_true_2 by (by eexists).
  - by rewrite bool_decide_eq_false_2 by (by intros [? ?]).
Qed.

(** X14: what [loadDict] logs.  With goog.DEBUG off it writes no line,
    whatever happens.  With goog.DEBUG on, a call that returns a Dict has
    written exactly one line per key of the key list, in the order of the
    keys.  The line is written out here character by character: two
    spaces, the operands joined by single commas (an integer in decimal, a
    real number as its text), one space, and then the entry the operator
    map holds under the key, or the key itself when no map was given or the
    map has no entry under the key.  What the engine prints for inherited
    members plays no part: no key of a loaded Dict is one. *)
Theorem X14_log_of_loadDict
    (inherited_text : string → string)
    (name : string) (buffer : list byte) (offset length : nat)
    (opt_dictOperators : option (gmap string string)) :
  snd (loadDict false inherited_text name buffer offset length
                opt_dictOperators) = []
  ∧ ∀ dict,
      fst (loadDict true inherited_text name buffer offset length
                    opt_dictOperators) = Ret dict →
      ∃ keyValuePairs,
        scanAll true length length
                (BinaryFontEditor.make (dataView_ dict) 0 0)
        = Ret keyValuePairs
        ∧ getKeys dict = Some (key <$> keyValuePairs)
        ∧ snd (loadDict true inherited_text name buffer offset length
                        opt_dictOperators)
          = (λ kv,
               "  "
               +:+ String.concat ","
                     ((λ operand, match operand with
                                  | Int z => pretty z
                                  | Real text => text
                                  end) <$> value kv)
               +:+ " "
               +:+ match opt_dictOperators with
                   | Some dictOperators =>
                       match dictOperators !! key kv with
                       | Some name => name
                       | None => key kv
                       end
                   | None => key kv
                   end)
              <$> keyValuePairs.
Proof.
  split.
  - destruct (new_DataView buffer offset length) as [dataView| |] eqn:Hview.
    + rewrite (loadDict_log _ _ _ _ _ _ _ _ Hview).
      unfold init_. apply init_loop_log_without_debug.
    + unfold loadDict. by rewrite snd_bind, Hview.
    + unfold loadDict. by rewrite snd_bind, Hview.
  - intros dict Hret.
    pose proof Hret as (dataView & kvs & Hview & Hlen & Hscan & Hkeys & _
                        & _ & _ & Hdv & Hops)%loadDict_Ret.
    exists kvs. split_and!; [by rewrite Hdv, <- Hlen | done |].
    rewrite loadDict_unfold, Hview in Hret. cbn [mbind outcome_bind] in Hret.
    rewrite (loadDict_log _ _ _ _ _ _ _ _ Hview).
    unfold init_ in *.
    apply init_loop_log_with_debug in Hret as (kvs' & Hscan' & ->).
    cbn [before_init new setOperators dataView_] in Hscan'.
    rewrite Hscan in Hscan'. injection Hscan' as <-.
    apply scanAll_inv in Hscan as [_ Htokens].
    apply list_fmap_ext. intros i kv Hi.
    apply list_elem_of_lookup_2 in Hi.
    rewrite Forall_forall in Htokens.
    destruct (Htokens kv Hi) as (_ & _ & token & Htoken).
    rewrite Htoken, label_token.
    cbn [before_init new setOperators dictOperators_].
    unfold log_line, Array_toString.
    by destruct opt_dictOperators as [dictOperators|].
Qed.

Lemma X14_witness :
  snd (loadDict false no_text "Top" [x8b; x8c; x05; x0c; x07] 0 5
                (Some TOP_DICT_OPERATORS)) = []
  ∧ ∀ dict,
      fst (loadDict true no_text "Top" [x8b; x8c; x05; x0c; x07] 0 5
                    (Some TOP_DICT_OPERATORS)) = Ret dict →
      ∃ keyValuePairs,
        scanAll true 5 5 (BinaryFontEditor.make (dataView_ dict) 0 0)
        = Ret keyValuePairs
        ∧ getKeys dict = Some (key <$> keyValuePairs)
        ∧ snd (loadDict true no_text "Top" [x8b; x8c; x05; x0c; x07] 0 5
                        (Some TOP_DICT_OPERATORS))
          = (λ kv,
               "  "
               +:+ String.concat ","
                     ((λ operand, match operand with
                                  | Int z => pretty z
                                  | Real text => text
                                  end) <$> value kv)
               +:+ " "
               +:+ match TOP_DICT_OPERATORS !! key kv with
                   | Some name => name
                   | None => key kv
                   end)
              <$> keyValuePairs.
Proof.
  exact (X14_log_of_loadDict no_text "Top" [x8b; x8c; x05; x0c; x07] 0 5
           (Some TOP_DICT_OPERATORS)).
Defined.

(** The lines of the example: the operands 0 and 1 of FontBBox, then the
    escape operator 12 7 without operands. *)
Example log_lines_example :
  snd (loadDict true no_text "Top" [x8b; x8c; x05; x0c; x07] 0 5
                (Some TOP_DICT_OPERATORS))
  = ["  0,1 FontBBox"; "   FontMatrix"].
Proof. by vm_compute. Qed.

(** X15: every call ends, and the bounds of the loops are the only limit.
    [parseNibbles_], a scan and [loadDict] end in a value or an error within
    the iterations the source allows (49 bytes, 49 operands, one scan per
    byte of the region); letting the scanner loop or the loop of [init_] run
    for more iterations changes nothing. *)
Theorem X15_every_call_ends
    (DEBUG : bool) (inherited_text : string → string)
    (binEd : BinaryFontEditor.t) (this : CffDict.t)
    (name : string) (buffer : list byte) (offset length : nat)
    (opt_dictOperators : option (gmap string string)) :
  parseNibbles_ binEd ≠ OutOfFuel
  ∧ fst (readOperandsOperator_ DEBUG binEd) ≠ OutOfFuel
  ∧ fst (init_ DEBUG inherited_text this) ≠ OutOfFuel
  ∧ fst (loadDict DEBUG inherited_text name buffer offset length
                  opt_dictOperators) ≠ OutOfFuel
  ∧ (∀ fuel, 49 ≤ fuel →
       readOperandsOperator_loop DEBUG fuel binEd []
       = readOperandsOperator_ DEBUG binEd)
  ∧ (∀ fuel, List.length (dataView_ this) ≤ fuel →
       fst (init_loop DEBUG inherited_text fuel this
              (BinaryFontEditor.make (dataView_ this) 0 0))
       = fst (init_ DEBUG inherited_text this)).
Proof.
  split_and!.
  - apply parseNibbles_fuel.
  - apply readOperandsOperator_fuel.
  - apply init_fuel.
  - apply loadDict_fuel.
  - intros fuel Hfuel. apply loop_fuel_irrelevant; simpl; lia.
  - intros fuel Hfuel. apply init_loop_fuel_irrelevant; simpl; lia.
Qed.

Lemma X15_witness :
  let binEd := BinaryFontEditor.make [x1e; x1a; x2f; x05] 0 0 in
  let this := CffDict.make "Top" [x1e; x1a; x2f; x05] (Some []) ∅ None in
  parseNibbles_ binEd ≠ OutOfFuel
  ∧ fst (readOperandsOperator_ true binEd) ≠ OutOfFuel
  ∧ fst (init_ true no_text this) ≠ OutOfFuel
  ∧ fst (loadDict true no_text "Top" [x1e; x1a; x2f; x05] 0 4 None)
    ≠ OutOfFuel
  ∧ (∀ fuel, 49 ≤ fuel →
       readOperandsOperator_loop true fuel binEd []
       = readOperandsOperator_ true binEd)
  ∧ (∀ fuel, List.length (dataView_ this) ≤ fuel →
       fst (init_loop true no_text fuel this
              (BinaryFontEditor.make (dataView_ this) 0 0))
       = fst (init_ true no_text this)).
Proof.
  exact (X15_every_call_ends true no_text
           (BinaryFontEditor.make [x1e; x1a; x2f; x05] 0 0)
           (CffDict.make "Top" [x1e; x1a; x2f; x05] (Some []) ∅ None)
           "Top" [x1e; x1a; x2f; x05] 0 4 None).
Defined.

(* ===================================================================== *)
(** ** Adjacent regions                                                   *)
(* ===================================================================== *)

Lemma shifted_next_byte n binEd1 binEd2 b :
  shifted n binEd1 binEd2 →
  next_byte binEd1 = Some b → next_byte binEd2 = Some b.
Proof.
  intros (Hbase & Hoff & Hdata) Hb%Hdata. unfold next_byte.
  rewrite Hbase, Hoff.
  by replace (baseOffset binEd1 + (offset binEd1 + n))
    with (baseOffset binEd1 + offset binEd1 + n) by lia.
Qed.

Lemma shifted_skip n k binEd1 binEd2 :
  shifted n binEd1 binEd2 → shifted n (skip k binEd1) (skip k binEd2).
Proof.
  intros (Hbase & Hoff & Hdata). split_and!; simpl; [done | lia | done].
Qed.

Lemma shifted_getUint8 n binEd1 binEd2 z binEd1' :
  shifted n binEd1 binEd2 →
  getUint8 binEd1 = Ret (z, binEd1') →
  getUint8 binEd2 = Ret (z, skip 1 binEd2)
  ∧ binEd1' = skip 1 binEd1.
Proof.
  intros Hshift (b & Hb & -> & ->)%getUint8_Ret.
  split; [|done]. apply getUint8_next. by eapply shifted_next_byte.
Qed.

Lemma shifted_parseNibbles_loop n fuel binEd1 binEd2 operand cnt text
    binEd1' :
  shifted n binEd1 binEd2 →
  parseNibbles_loop fuel binEd1 operand cnt = Ret (text, binEd1') →
  ∃ binEd2',
    parseNibbles_loop fuel binEd2 operand cnt = Ret (text, binEd2')
    ∧ shifted n binEd1' binEd2'.
Proof.
  revert binEd1 binEd2 operand cnt.
  induction fuel as [|fuel IH]; intros binEd1 binEd2 operand cnt Hshift.
  - simpl. destruct (cnt <=? 48); [done|]. intros [= <- <-].
    by exists binEd2.
  - rewrite !parseNibbles_loop_unfold. destruct (cnt <=? 48).
    2:{ intros [= <- <-]. by exists binEd2. }
    destruct (getUint8 binEd1) as [[aByte binEd]| |] eqn:Hread; try done.
    destruct (shifted_getUint8 _ _ _ _ _ Hshift Hread) as [-> ->].
    pose proof (shifted_skip _ 1 _ _ Hshift) as Hshift'.
    destruct (parseNibble _ operand) as [operand1|operand1].
    2:{ intros [= <- <-]. by exists (skip 1 binEd2). }
    destruct (parseNibble _ operand1) as [operand2|operand2].
    2:{ intros [= <- <-]. by exists (skip 1 binEd2). }
    by apply IH.
Qed.

(** Replays on the second cursor the reads made on the first. *)
Ltac shifted_reads Hshift :=
  repeat
    match goal with
    | |- context [getUint8 ?e2] =>
        erewrite (getUint8_next e2)
          by (eapply shifted_next_byte;
              [ repeat apply shifted_skip; exact Hshift | eassumption ]);
        cbn [mbind outcome_bind]
    end;
  try (eexists; split;
       [ reflexivity | repeat apply shifted_skip; exact Hshift ]).

Lemma shifted_readOperand n b0 binEd1 binEd2 operand binEd1' :
  shifted n binEd1 binEd2 →
  readOperand b0 binEd1 = Ret (operand, binEd1') →
  ∃ binEd2',
    readOperand b0 binEd2 = Ret (operand, binEd2')
    ∧ shifted n binEd1' binEd2'.
Proof.
  intros Hshift.
  destruct (readOperand_cases b0 binEd1)
    as [[H1 ->]|[[H1 ->]|[[H1 ->]|[[H1 ->]|[[H1 ->]|[[H1 ->]|[H1 ->]]]]]]];
    destruct (readOperand_cases b0 binEd2)
      as [[H2 ->]|[[H2 ->]|[[H2 ->]|[[H2 ->]|[[H2 ->]|[[H2 ->]|[H2 ->]]]]]]];
    try lia; clear H1 H2; intros Hop; bind_inv Hop;
    repeat match goal with
           | Hread : getUint8 _ = Ret _ |- _ => read_inv Hread
           end;
    try (injection Hop as <- <-; by shifted_reads Hshift).
  match goal with
  | Hp : parseNibbles_ _ = Ret _ |- _ =>
      destruct (shifted_parseNibbles_loop _ _ _ _ _ _ _ _ Hshift Hp)
        as (binEd2' & Hp2 & Hshift')
  end.
  injection Hop as <- <-. exists binEd2'. split; [|done].
  unfold parseNibbles_. by rewrite Hp2.
Qed.

Lemma shifted_readOperator n b0 binEd1 binEd2 operator binEd1' :
  shifted n binEd1 binEd2 →
  readOperator b0 binEd1 = Ret (operator, binEd1') →
  ∃ binEd2',
    readOperator b0 binEd2 = Ret (operator, binEd2')
    ∧ shifted n binEd1' binEd2'.
Proof.
  intros Hshift. unfold readOperator. destruct (b0 =? 12)%Z.
  - intros Hop. bind_inv Hop.
    match goal with
    | Hread : getUint8 _ = Ret _ |- _ => read_inv Hread
    end.
    injection Hop as <- <-. by shifted_reads Hshift.
  - intros [= <- <-]. by exists binEd2.
Qed.

Lemma shifted_loop DEBUG n fuel binEd1 binEd2 operands keyValuePair binEd1'
    log :
  shifted n binEd1 binEd2 →
  readOperandsOperator_loop DEBUG fuel binEd1 operands
  = (Ret (keyValuePair, binEd1'), log) →
  ∃ binEd2',
    readOperandsOperator_loop DEBUG fuel binEd2 operands
    = (Ret (keyValuePair, binEd2'), log)
    ∧ shifted n binEd1' binEd2'.
Proof.
  revert binEd1 binEd2 operands.
  induction fuel as [|fuel IH]; intros binEd1 binEd2 operands Hshift.
  - simpl. destruct (length operands <=? 48); [done|].
    intros [= <- <- <-]. by exists binEd2.
  - destruct (decide (length operands ≤ 48)) as [Hle|Hgt].
    2:{ rewrite !loop_exit by lia. intros [= <- <- <-]. by exists binEd2. }
    rewrite !loop_body by done.
    destruct (getUint8 binEd1) as [[b0 binEd]| |] eqn:Hread; try done.
    destruct (shifted_getUint8 _ _ _ _ _ Hshift Hread) as [-> ->].
    pose proof (shifted_skip _ 1 _ _ Hshift) as Hshift1.
    destruct (reserved b0); [done|].
    destruct (readOperand b0 (skip 1 binEd1))
      as [[[operand|] binEd3]| |] eqn:Hop; try done.
    + destruct (shifted_readOperand _ _ _ _ _ _ Hshift1 Hop)
        as (binEd4 & -> & Hshift4).
      by apply IH.
    + destruct (shifted_readOperand _ _ _ _ _ _ Hshift1 Hop)
        as (binEd4 & -> & Hshift4).
      destruct (readOperator b0 binEd3) as [[operator binEd5]| |] eqn:Hor;
        try done.
      destruct (shifted_readOperator _ _ _ _ _ _ Hshift4 Hor)
        as (binEd6 & -> & Hshift6).
      intros [= <- <- <-]. by exists binEd6.
Qed.

Lemma in_view_next binEd b :
  next_byte binEd = Some b → in_view (skip 1 binEd).
Proof.
  intros Hb%lookup_lt_Some. unfold in_view. simpl. lia.
Qed.

Lemma parseNibbles_loop_in_view fuel binEd operand cnt text binEd' :
  parseNibbles_loop fuel binEd operand cnt = Ret (text, binEd') →
  in_view binEd → in_view binEd'.
Proof.
  revert binEd operand cnt.
  induction fuel as [|fuel IH]; intros binEd operand cnt.
  - simpl. destruct (cnt <=? 48); [done|]. by intros [= _ <-].
  - rewrite parseNibbles_loop_unfold. destruct (cnt <=? 48).
    2:{ by intros [= _ <-]. }
    case_read binEd; [|done].
    destruct (parseNibble _ operand) as [operand1|operand1].
    2:{ intros [= _ <-] _. by eapply in_view_next. }
    destruct (parseNibble _ operand1) as [operand2|operand2].
    2:{ intros [= _ <-] _. by eapply in_view_next. }
    intros Hrec _. apply (IH _ _ _ Hrec). by eapply in_view_next.
Qed.

Lemma readOperand_in_view b0 binEd operand binEd' :
  readOperand b0 binEd = Ret (operand, binEd') →
  in_view binEd → in_view binEd'.
Proof.
  destruct (readOperand_cases b0 binEd)
    as [[_ ->]|[[_ ->]|[[_ ->]|[[_ ->]|[[_ ->]|[[_ ->]|[_ ->]]]]]]];
    intros Hop; bind_inv Hop;
    repeat match goal with
           | Hread : getUint8 _ = Ret _ |- _ => read_inv Hread
           end;
    try (injection Hop as _ <-; intros Hin;
         first [ exact Hin | eapply in_view_next; eassumption ]).
  match goal with
  | Hp : parseNibbles_ _ = Ret _ |- _ =>
      injection Hop as _ <-; by apply (parseNibbles_loop_in_view _ _ _ _ _ _ Hp)
  end.
Qed.

Lemma readOperator_in_view b0 binEd operator binEd' :
  readOperator b0 binEd = Ret (operator, binEd') →
  in_view binEd → in_view binEd'.
Proof.
  unfold readOperator. destruct (b0 =? 12)%Z.
  - intros Hop. bind_inv Hop.
    match goal with
    | Hread : getUint8 _ = Ret _ |- _ => read_inv Hread
    end.
    injection Hop as _ <-. intros _. by eapply in_view_next.
  - by intros [= _ <-].
Qed.

Lemma operand_steps_in_view s s' :
  rtc operand_step s s' → in_view s.1 → in_view s'.1.
Proof.
  induction 1 as [s|s1 s2 s3 Hstep _ IH]; [done|].
  intros _. apply IH.
  destruct Hstep as [binEd operands b0 binEd1 operand binEd2 _ Hread _ Hop].
  cbn [fst]. apply (readOperand_in_view _ _ _ _ Hop).
  apply getUint8_Ret in Hread as (b & Hb & _ & ->). by eapply in_view_next.
Qed.

Lemma scan_in_view DEBUG binEd keyValuePair binEd' :
  fst (readOperandsOperator_ DEBUG binEd) = Ret (keyValuePair, binEd') →
  in_view binEd → in_view binEd'.
Proof.
  destruct (readOperandsOperator_ DEBUG binEd) as [r l] eqn:Hscan.
  simpl. intros -> Hin.
  apply loop_Ret_run in Hscan as (binEd1 & Hrun & Hend).
  apply operand_steps_in_view in Hrun; [|done]. cbn [fst] in Hrun.
  destruct Hend as [(_ & _ & ->)|(_ & b0 & binEd2 & Hread & _ & _ & Hor)];
    [done|].
  apply (readOperator_in_view _ _ _ _ Hor).
  apply getUint8_Ret in Hread as (b & Hb & _ & ->). by eapply in_view_next.
Qed.

Lemma scan_shifted DEBUG n binEd1 binEd2 keyValuePair binEd1' :
  shifted n binEd1 binEd2 →
  fst (readOperandsOperator_ DEBUG binEd1) = Ret (keyValuePair, binEd1') →
  ∃ binEd2',
    fst (readOperandsOperator_ DEBUG binEd2) = Ret (keyValuePair, binEd2')
    ∧ shifted n binEd1' binEd2'
    ∧ dataView binEd2' = dataView binEd2
    ∧ dataView binEd1' = dataView binEd1
    ∧ baseOffset binEd1' = baseOffset binEd1
    ∧ offset binEd1 < offset binEd1'.
Proof.
  intros Hshift.
  destruct (readOperandsOperator_ DEBUG binEd1) as [r l] eqn:Hscan.
  simpl. intros ->.
  pose proof (readOperandsOperator_Ret _ _ _ _ _ Hscan)
    as (_ & [Hv1 Hb1] & Hoff & _).
  destruct (shifted_loop _ _ _ _ _ _ _ _ _ Hshift Hscan)
    as (binEd2' & Hscan2 & Hshift').
  pose proof (readOperandsOperator_Ret _ _ _ _ _ Hscan2)
    as (_ & [Hv2 _] & _).
  exists binEd2'. unfold readOperandsOperator_. rewrite Hscan2.
  by split_and!.
Qed.

Section Regions.

Variable DEBUG : bool.

Lemma scanAll_more_fuel fuel fuel' byteLength binEd keyValuePairs :
  scanAll DEBUG fuel byteLength binEd = Ret keyValuePairs →
  fuel ≤ fuel' →
  scanAll DEBUG fuel' byteLength binEd = Ret keyValuePairs.
Proof.
  revert fuel' binEd keyValuePairs.
  induction fuel as [|fuel IH]; intros fuel' binEd kvs.
  - destruct (decide (offset binEd < byteLength)) as [Hlt|Hge].
    { simpl. apply Nat.ltb_lt in Hlt. by rewrite Hlt. }
    by rewrite !scanAll_exit by lia.
  - destruct (decide (offset binEd < byteLength)) as [Hlt|Hge].
    2:{ by rewrite !scanAll_exit by lia. }
    intros Hscan Hfuel. destruct fuel' as [|fuel']; [lia|].
    rewrite scanAll_body in Hscan |- * by done.
    destruct (fst (readOperandsOperator_ DEBUG binEd))
      as [[kv binEd']| |]; try done.
    cbn [mbind outcome_bind] in Hscan |- *.
    destruct (scanAll DEBUG fuel byteLength binEd') as [rest| |] eqn:Hrest;
      try done.
    by rewrite (IH fuel' _ _ Hrest) by lia.
Qed.

(** The scans of a region read at another place of a larger view. *)
Lemma scanAll_shifted n fuel byteLength binEd1 binEd2 keyValuePairs :
  shifted n binEd1 binEd2 →
  scanAll DEBUG fuel byteLength binEd1 = Ret keyValuePairs →
  scanAll DEBUG fuel (byteLength + n) binEd2 = Ret keyValuePairs.
Proof.
  revert binEd1 binEd2 keyValuePairs.
  induction fuel as [|fuel IH]; intros binEd1 binEd2 kvs Hshift.
  - pose proof Hshift as (_ & Hoff & _).
    destruct (decide (offset binEd1 < byteLength)) as [Hlt|Hge].
    { simpl. apply Nat.ltb_lt in Hlt. by rewrite Hlt. }
    by rewrite !scanAll_exit by lia.
  - pose proof Hshift as (_ & Hoff & _).
    destruct (decide (offset binEd1 < byteLength)) as [Hlt|Hge].
    2:{ by rewrite !scanAll_exit by lia. }
    rewrite !scanAll_body by lia.
    destruct (fst (readOperandsOperator_ DEBUG binEd1))
      as [[kv binEd1']| |] eqn:Hscan; try done.
    destruct (scan_shifted _ _ _ _ _ _ Hshift Hscan)
      as (binEd2' & -> & Hshift' & _).
    cbn [mbind outcome_bind].
    destruct (scanAll DEBUG fuel byteLength binEd1') as [rest| |] eqn:Hrest;
      try done.
    by rewrite (IH _ _ _ Hshift' Hrest).
Qed.

(** The scans of a region followed by the scans of what comes after it
    in a larger view. *)
Lemma scanAll_app fuel1 binEd1 binEd2 keyValuePairs1 :
  shifted 0 binEd1 binEd2 →
  baseOffset binEd1 = 0 →
  in_view binEd1 →
  scanAll DEBUG fuel1 (length (dataView binEd1)) binEd1
  = Ret keyValuePairs1 →
  ∀ fuel2 byteLength keyValuePairs2,
    length (dataView binEd1) ≤ byteLength →
    scanAll DEBUG fuel2 byteLength
            (BinaryFontEditor.make (dataView binEd2) 0
                                   (length (dataView binEd1)))
    = Ret keyValuePairs2 →
    scanAll DEBUG (fuel1 + fuel2) byteLength binEd2
    = Ret (keyValuePairs1 ++ keyValuePairs2).
Proof.
  revert binEd1 binEd2 keyValuePairs1.
  induction fuel1 as [|fuel1 IH];
    intros binEd1 binEd2 kvs1 Hshift Hbase Hin Hscan1 fuel2 n kvs2 Hn
           Hscan2.
  - destruct (decide (offset binEd1 < length (dataView binEd1)))
      as [Hlt|Hge].
    { simpl in Hscan1. apply Nat.ltb_lt in Hlt. by rewrite Hlt in Hscan1. }
    rewrite scanAll_exit in Hscan1 by lia. injection Hscan1 as <-.
    pose proof Hshift as (Hbase2 & Hoff2 & _).
    unfold in_view in Hin.
    assert (binEd2
            = BinaryFontEditor.make (dataView binEd2) 0
                                    (length (dataView binEd1))) as ->.
    { destruct binEd2 as [dv2 base2 off2]. simpl in *. f_equal; lia. }
    done.
  - destruct (decide (offset binEd1 < length (dataView binEd1)))
      as [Hlt|Hge].
    2:{ rewrite scanAll_exit in Hscan1 by lia. injection Hscan1 as <-.
        pose proof Hshift as (Hbase2 & Hoff2 & _).
        unfold in_view in Hin.
        assert (binEd2
                = BinaryFontEditor.make (dataView binEd2) 0
                                        (length (dataView binEd1))) as ->.
        { destruct binEd2 as [dv2 base2 off2]. simpl in *. f_equal; lia. }
        apply (scanAll_more_fuel _ _ _ _ _ Hscan2). lia. }
    rewrite scanAll_body in Hscan1 by done.
    destruct (fst (readOperandsOperator_ DEBUG binEd1))
      as [[kv binEd1']| |] eqn:Hscan; try done.
    cbn [mbind outcome_bind] in Hscan1.
    destruct (scanAll DEBUG fuel1 (length (dataView binEd1)) binEd1')
      as [rest| |] eqn:Hrest; try done.
    cbn [mbind outcome_bind] in Hscan1. injection Hscan1 as <-.
    destruct (scan_shifted _ _ _ _ _ _ Hshift Hscan)
      as (binEd2' & Hscan' & Hshift' & Hdv2 & Hdv1 & Hbase1 & Hoff).
    pose proof (scan_in_view _ _ _ _ Hscan Hin) as Hin'.
    pose proof Hshift as (_ & Hoff2 & _).
    assert (offset binEd2 < n) as Hlt2 by lia.
    change (S fuel1 + fuel2) with (S (fuel1 + fuel2)).
    rewrite scanAll_body by done. rewrite Hscan'.
    cbn [mbind outcome_bind].
    rewrite <- Hdv1 in Hrest.
    rewrite (IH binEd1' binEd2' rest Hshift'
                ltac:(congruence) Hin' Hrest fuel2 n kvs2)
      by (rewrite ?Hdv2, ?Hdv1; done).
    done.
Qed.

End Regions.

Lemma last_value_app token keyValuePairs1 keyValuePairs2 :
  last_value token (keyValuePairs1 ++ keyValuePairs2)
  = match last_value token keyValuePairs2 with
    | Some operands => Some operands
    | None => last_value token keyValuePairs1
    end.
Proof.
  induction keyValuePairs2 as [|kv kvs IH] using rev_ind.
  { by rewrite app_nil_r. }
  rewrite app_assoc, !last_value_snoc. by case_decide.
Qed.

(** [init_] stores what the scans produce. *)
Lemma init_loop_of_scanAll DEBUG inherited_text fuel this binEd
    keyValuePairs :
  scanAll DEBUG fuel (length (dataView_ this)) binEd = Ret keyValuePairs →
  (keyValuePairs ≠ [] → is_Some (keys_ this)) →
  fst (init_loop DEBUG inherited_text fuel this binEd)
  = Ret (CffDict.make (name_ this) (dataView_ this)
           ((λ keys, keys ++ (key <$> keyValuePairs)) <$> keys_ this)
           (foldl (λ m kv, <[key kv := value kv]> m) (dict_ this)
                  keyValuePairs)
           (dictOperators_ this)).
Proof.
  assert (∀ this : CffDict.t,
            Ret this
            = Ret (CffDict.make (name_ this) (dataView_ this)
                     ((λ keys, keys ++ (key <$> [])) <$> keys_ this)
                     (foldl (λ m kv, <[key kv := value kv]> m) (dict_ this)
                            [])
                     (dictOperators_ this))) as Hnil.
  { intros [n d [k|] m o]; simpl; by rewrite ?app_nil_r. }
  revert this binEd keyValuePairs.
  induction fuel as [|fuel IH]; intros this binEd kvs.
  - destruct (decide (offset binEd < length (dataView_ this))) as [Hlt|Hge].
    { simpl. apply Nat.ltb_lt in Hlt. by rewrite Hlt. }
    rewrite init_loop_exit, scanAll_exit by lia. intros [= <-] _.
    apply Hnil.
  - destruct (decide (offset binEd < length (dataView_ this))) as [Hlt|Hge].
    2:{ rewrite init_loop_exit, scanAll_exit by lia. intros [= <-] _.
        apply Hnil. }
    rewrite init_loop_body, scanAll_body by done.
    destruct (fst (readOperandsOperator_ DEBUG binEd))
      as [[kv binEd']| |]; try done.
    cbn [mbind outcome_bind].
    destruct (scanAll DEBUG fuel (length (dataView_ this)) binEd')
      as [rest| |] eqn:Hrest; try done.
    cbn [mbind outcome_bind]. intros [= <-] Hkeys.
    destruct Hkeys as [keys Hkeys]; [done|].
    unfold keys_push. rewrite Hkeys.
    cbn [fst mret logged_ret mbind outcome_bind].
    rewrite (IH _ _ rest) by (done || by eexists).
    simpl. by rewrite <- app_assoc.
Qed.

(** X16: two adjacent regions load as one.  When the region of [length1]
    bytes at [offset] and the region of [length2] bytes right behind it
    both load into Dicts, the region of [length1 + length2] bytes at
    [offset] loads too: its key list is the key list of the first Dict
    followed by that of the second, and its mapping is the two mappings
    together, an operator of both regions keeping the operands it has in
    the second. *)
Theorem X16_adjacent_regions_load_as_one
    (DEBUG : bool) (inherited_text : string → string)
    (name1 name2 name : string) (buffer : list byte)
    (offset length1 length2 : nat)
    (dictOperators1 dictOperators2 dictOperators
       : option (gmap string string))
    (dict1 dict2 : CffDict.t) :
  fst (loadDict DEBUG inherited_text name1 buffer offset length1
                dictOperators1) = Ret dict1 →
  fst (loadDict DEBUG inherited_text name2 buffer (offset + length1) length2
                dictOperators2) = Ret dict2 →
  ∃ dict,
    fst (loadDict DEBUG inherited_text name buffer offset
                  (length1 + length2) dictOperators) = Ret dict
    ∧ getName dict = name
    ∧ getKeys dict
      = match getKeys dict1, getKeys dict2 with
        | Some keys1, Some keys2 => Some (keys1 ++ keys2)
        | _, _ => None
        end
    ∧ dict_ dict = dict_ dict2 ∪ dict_ dict1.
Proof.
  intros (dv1 & kvs1 & Hview1 & Hlen1 & Hscan1 & Hkeys1 & Hnone1 & Hlookup1
          & _)%loadDict_Ret
         (dv2 & kvs2 & Hview2 & Hlen2 & Hscan2 & Hkeys2 & Hnone2 & Hlookup2
          & _)%loadDict_Ret.
  (* the large region is the two regions one after the other *)
  assert (new_DataView buffer offset (length1 + length2) = Ret (dv1 ++ dv2))
    as Hview.
  { unfold new_DataView in *.
    destruct (offset + length1 <=? length buffer) eqn:Hfit1; [|done].
    destruct (offset + length1 + length2 <=? length buffer) eqn:Hfit2;
      [|done].
    apply Nat.leb_le in Hfit1, Hfit2.
    replace (offset + (length1 + length2) <=? length buffer) with true
      by (symmetry; apply Nat.leb_le; lia).
    injection Hview1 as <-. injection Hview2 as <-.
    by rewrite <- drop_drop, take_take_drop. }
  (* its scans are the scans of the first, then those of the second *)
  assert (scanAll DEBUG (length1 + length2) (length1 + length2)
                  (BinaryFontEditor.make (dv1 ++ dv2) 0 0)
          = Ret (kvs1 ++ kvs2)) as Hscan.
  { rewrite <- Hlen1, <- Hlen2.
    apply (scanAll_app DEBUG _ (BinaryFontEditor.make dv1 0 0)
                       (BinaryFontEditor.make (dv1 ++ dv2) 0 0)).
    - split_and!; [done | done |]. simpl. intros i b Hb.
      rewrite Nat.add_0_r. by apply lookup_app_l_Some.
    - done.
    - unfold in_view. simpl. lia.
    - done.
    - simpl. lia.
    - simpl. rewrite (Nat.add_comm (length dv1)).
      apply (scanAll_shifted DEBUG _ _ _ (BinaryFontEditor.make dv2 0 0));
        [|done].
      split_and!; [done | done |]. simpl. intros i b Hb.
      rewrite lookup_app_r by lia.
      by replace (i + length dv1 - length dv1) with i by lia. }
  set (start := before_init DEBUG name (dv1 ++ dv2) dictOperators).
  assert (dataView_ start = dv1 ++ dv2
          ∧ dict_ start = ∅
          ∧ keys_ start = (if DEBUG then Some [] else None)
          ∧ name_ start = name)
    as (Hdv & Hdict & Hkeys & Hname)
    by (unfold start, before_init; by destruct DEBUG).
  eexists. split.
  { rewrite loadDict_unfold, Hview. cbn [mbind outcome_bind].
    unfold init_. fold start. rewrite Hdv, length_app, Hlen1, Hlen2.
    apply init_loop_of_scanAll.
    - by rewrite Hdv, length_app, Hlen1, Hlen2.
    - intros Hne. rewrite Hkeys. destruct DEBUG; [by eexists|].
      rewrite Hnone1, Hnone2 in Hne by done. done. }
  split_and!.
  - done.
  - unfold getKeys. cbn [keys_]. rewrite Hkeys, Hkeys1, Hkeys2.
    destruct DEBUG; [|done]. simpl. by rewrite fmap_app.
  - cbn [dict_]. rewrite Hdict. apply map_eq. intros token.
    rewrite lookup_foldl_insert, last_value_app, lookup_union.
    rewrite Hlookup1, Hlookup2, lookup_empty.
    by destruct (last_value token kvs2), (last_value token kvs1).
Qed.

Lemma X16_witness :
  ∃ dict,
    fst (loadDict true no_text "Top"
           [x00; x8b; x05; x0c; x07; x8c; x05; x00] 1 (4 + 2) None)
    = Ret dict
    ∧ getName dict = "Top"
    ∧ getKeys dict
      = match getKeys (CffDict.make "A" [x8b; x05; x0c; x07]
                         (Some ["5"; "12 7"])
                         (<["12 7" := []]> {[ "5" := [Int 0] ]}) None),
              getKeys (CffDict.make "B" [x8c; x05] (Some ["5"])
                         {[ "5" := [Int 1] ]} None) with
        | Some keys1, Some keys2 => Some (keys1 ++ keys2)
        | _, _ => None
        end
    ∧ dict_ dict
      = dict_ (CffDict.make "B" [x8c; x05] (Some ["5"])
                 {[ "5" := [Int 1] ]} None)
        ∪ dict_ (CffDict.make "A" [x8b; x05; x0c; x07]
                   (Some ["5"; "12 7"])
                   (<["12 7" := []]> {[ "5" := [Int 0] ]}) None).
Proof.
  apply (X16_adjacent_regions_load_as_one true no_text "A" "B" "Top"
           [x00; x8b; x05; x0c; x07; x8c; x05; x00] 1 4 2 None None None).
  - vm_compute. reflexivity.
  - vm_compute. reflexivity.
Defined.

(* ===================================================================== *)
(** ** goog.DEBUG and the scanner                                         *)
(* ===================================================================== *)

Lemma loop_debug_flag DEBUG fuel binEd operands :
  fst (readOperandsOperator_loop DEBUG fuel binEd operands)
  = fst (readOperandsOperator_loop false fuel binEd operands)
  ∧ snd (readOperandsOperator_loop true fuel binEd operands)
    = match fst (readOperandsOperator_loop true fuel binEd operands) with
      | Throw (ReservedOperandByte b0) =>
          [JS.toString b0 +:+ " is a reserved operand value"]
      | _ => []
      end.
Proof.
  revert binEd operands.
  induction fuel as [|fuel IH]; intros binEd operands.
  - simpl. by destruct (length operands <=? 48).
  - destruct (decide (length operands ≤ 48)) as [Hle|Hgt].
    2:{ by rewrite !loop_exit by lia. }
    rewrite !loop_body by done.
    destruct (getUint8 binEd) as [[b0 binEd1]| |] eqn:Hread.
    + destruct (reserved b0); [done|].
      destruct (readOperand b0 binEd1) as [[[operand|] binEd2]| |] eqn:Hop.
      * apply IH.
      * destruct (readOperator b0 binEd2) as [[operator binEd3]| |] eqn:Hor;
          [done| |done].
        apply readOperator_Throw in Hor as ->. done.
      * apply readOperand_Throw in Hop as ->. done.
      * done.
    + apply getUint8_Throw in Hread as [-> _]. done.
    + done.
Qed.

(** X17: goog.DEBUG does not change a scan.  With the flag on or off
    [readOperandsOperator_] returns the same key, operands and cursor or
    throws the same error; the flag only adds, before the error of a
    reserved byte is thrown, the log line naming that byte.  A scan logs
    nothing else. *)
Theorem X17_debug_flag_does_not_change_a_scan
    (DEBUG : bool) (binEd : BinaryFontEditor.t) :
  fst (readOperandsOperator_ DEBUG binEd)
  = fst (readOperandsOperator_ false binEd)
  ∧ snd (readOperandsOperator_ false binEd) = []
  ∧ snd (readOperandsOperator_ true binEd)
    = match fst (readOperandsOperator_ true binEd) with
      | Throw (ReservedOperandByte b0) =>
          [JS.toString b0 +:+ " is a reserved operand value"]
      | _ => []
      end.
Proof.
  unfold readOperandsOperator_.
  destruct (loop_debug_flag DEBUG 49 binEd []) as [Hfst _].
  destruct (loop_debug_flag true 49 binEd []) as [_ Hsnd].
  split; [done|]. split; [|done]. apply loop_log_without_debug.
Qed.
